(** * Blueprint: command templates of studio (package [blueprint])

    A shallow embedding of [FromArgs] and [BuildCommandArgs] and of the
    parts of Go's [strings] and [regexp] packages they call, followed by
    the properties of parsing and rendering.

    Go strings are byte sequences: they are modelled as [string], whose
    characters are the 256 byte values.  Both regular expressions of the
    package only name ASCII bytes, and in UTF-8 an ASCII byte never occurs
    inside a longer sequence, so matching byte by byte finds the matches
    that Go's rune-based matcher finds. *)

From Stdlib Require Import Ascii String List Bool Arith Lia.
From stdpp Require Import base option list strings gmap.

Import ListNotations.
Local Open Scope string_scope.
Local Open Scope list_scope.
Local Open Scope nat_scope.

(** ** Package [strings] *)

Module Strings.

(** [strings.Join]. *)
Definition Join (elems : list string) (sep : string) : string :=
  String.concat sep elems.

(** [strings.HasPrefix s old]. *)
Fixpoint HasPrefix (s old : string) {struct old} : bool :=
  match old with
  | EmptyString => true
  | String a old' =>
      match s with
      | EmptyString => false
      | String b s' => Ascii.eqb a b && HasPrefix s' old'
      end
  end.

(** The loop of [strings.Replace] with [n < 0]: the leftmost occurrence
    of [old] is replaced, and the search goes on behind it.  [skip]
    counts the bytes of an occurrence still to be passed over. *)
Fixpoint replaceFrom (skip : nat) (s old new : string) : string :=
  match s with
  | EmptyString => EmptyString
  | String c t =>
      match skip with
      | S k => replaceFrom k t old new
      | O =>
          if HasPrefix s old
          then new +:+ replaceFrom (String.length old - 1) t old new
          else String c (replaceFrom 0 t old new)
      end
  end.

(** [strings.ReplaceAll s old new].  The package calls it with
    [old = "-"] and with the text of a match of [templateRegex], never
    with the empty string; Go's rule for an empty [old] (insert [new]
    around every rune) is not part of the model, which leaves [s] as it
    is there. *)
Definition ReplaceAll (s old new : string) : string :=
  match old with
  | EmptyString => s
  | _ => replaceFrom 0 s old new
  end.

(** [unicode.IsSpace] on the bytes of a string: the rest of [s] behind
    one leading white-space rune.  The white-space runes are the six
    ASCII ones, U+0085 and U+00A0 (two bytes in UTF-8), and U+1680,
    U+2000..U+200A, U+2028, U+2029, U+202F, U+205F and U+3000 (three
    bytes).  A byte that does not start one of these encodings decodes
    to another rune or to U+FFFD, neither of which is white space. *)
Definition asciiSpace (n : nat) : bool :=
  (n =? 9) || (n =? 10) || (n =? 11) || (n =? 12) || (n =? 13) || (n =? 32).

Definition space2 (a b : nat) : bool :=
  (a =? 194) && ((b =? 133) || (b =? 160)).

Definition space3 (a b c : nat) : bool :=
  ((a =? 225) && (b =? 154) && (c =? 128))
  || ((a =? 226) && (b =? 128)
      && ((128 <=? c) && (c <=? 138) || (c =? 168) || (c =? 169) || (c =? 175)))
  || ((a =? 226) && (b =? 129) && (c =? 159))
  || ((a =? 227) && (b =? 128) && (c =? 128)).

(** [strings.TrimLeftFunc s unicode.IsSpace]. *)
Fixpoint TrimLeftSpace (s : string) : string :=
  match s with
  | EmptyString => EmptyString
  | String a r =>
      if asciiSpace (nat_of_ascii a) then TrimLeftSpace r
      else
        match r with
        | EmptyString => s
        | String b r2 =>
            if space2 (nat_of_ascii a) (nat_of_ascii b) then TrimLeftSpace r2
            else
              match r2 with
              | EmptyString => s
              | String c r3 =>
                  if space3 (nat_of_ascii a) (nat_of_ascii b) (nat_of_ascii c)
                  then TrimLeftSpace r3
                  else s
              end
        end
  end.

(** The same scan on the reversed string, for
    [strings.TrimRightFunc s unicode.IsSpace]: [utf8.DecodeLastRune]
    walks back to the nearest byte that starts a rune and accepts the
    rune when its encoding ends where the string ends, so the last rune
    is white space exactly when one of the encodings above is a suffix. *)
Fixpoint trimLeftSpaceRev (s : string) : string :=
  match s with
  | EmptyString => EmptyString
  | String a r =>
      if asciiSpace (nat_of_ascii a) then trimLeftSpaceRev r
      else
        match r with
        | EmptyString => s
        | String b r2 =>
            if space2 (nat_of_ascii b) (nat_of_ascii a) then trimLeftSpaceRev r2
            else
              match r2 with
              | EmptyString => s
              | String c r3 =>
                  if space3 (nat_of_ascii c) (nat_of_ascii b) (nat_of_ascii a)
                  then trimLeftSpaceRev r3
                  else s
              end
        end
  end.

Definition TrimRightSpace (s : string) : string :=
  String.rev (trimLeftSpaceRev (String.rev s)).

(** [strings.TrimSpace]. *)
Definition TrimSpace (s : string) : string :=
  TrimRightSpace (TrimLeftSpace s).

End Strings.

(** ** Package [regexp], for the two expressions of the package *)

Module Regexp.

(** The result of [FindStringSubmatch]: the text of the match and of its
    two groups.  Both expressions have two groups, so that the slice Go
    returns always has three entries; a group that took no part in the
    match is the empty string. *)
Record submatch : Type := Submatch
  { m0 : string;
    m1 : string;
    m2 : string }.

(** The longest prefix of [s] whose bytes satisfy [p], and the rest: what
    a greedy [[...]+] consumes first. *)
Fixpoint span (p : ascii -> bool) (s : string) : string * string :=
  match s with
  | EmptyString => (EmptyString, EmptyString)
  | String c t =>
      if p c then let (a, b) := span p t in (String c a, b)
      else (EmptyString, s)
  end.

Definition isEmpty (s : string) : bool :=
  match s with EmptyString => true | _ => false end.

(** The class [[^#}]] of [templateRegex]. *)
Definition nameByte (c : ascii) : bool :=
  negb (Ascii.eqb c "#" || Ascii.eqb c "}").

(** The class [[^}]] of [templateRegex]. *)
Definition descByte (c : ascii) : bool :=
  negb (Ascii.eqb c "}").

(** The class [[^.\]]] of [optionalRegex]. *)
Definition optByte (c : ascii) : bool :=
  negb (Ascii.eqb c "." || Ascii.eqb c "]").

(** A match of [\{\{([^#}]+)(?:#([^}]+))?\}\}] anchored at the start of
    [s], with the text behind it.  The byte after a greedy run is outside
    its class, and each class contains every byte but the delimiters that
    must follow, so giving bytes back never helps: the name is the whole
    run of [[^#}]], and the description, when a [#] follows, the whole run
    of [[^}]]. *)
Definition templateMatchAt (s : string) : option (submatch * string) :=
  match s with
  | String "{" (String "{" s1) =>
      let (name, s2) := span nameByte s1 in
      if isEmpty name then None
      else
        match s2 with
        | String "}" (String "}" rest) =>
            Some (Submatch ("{{" +:+ name +:+ "}}") name "", rest)
        | String "#" s3 =>
            let (desc, s4) := span descByte s3 in
            if isEmpty desc then None
            else
              match s4 with
              | String "}" (String "}" rest) =>
                  Some (Submatch ("{{" +:+ name +:+ "#" +:+ desc +:+ "}}")
                                 name desc, rest)
              | _ => None
              end
        | _ => None
        end
  | _ => None
  end.

(** A word cut at the matches of [templateRegex]: the bytes outside the
    matches and the matches, in order. *)
Inductive piece : Type :=
  | Lit (c : ascii)
  | Hit (m : submatch).

(** The search loop shared by [FindAllStringSubmatch] and
    [ReplaceAllString]: the leftmost match from the current position is
    taken and the search goes on behind it (a match is never empty).
    Every step consumes a byte, so [String.length s] steps are enough. *)
Fixpoint templateScan (fuel : nat) (s : string) : list piece :=
  match fuel with
  | O => []
  | S fuel' =>
      match s with
      | EmptyString => []
      | String c t =>
          match templateMatchAt s with
          | Some (m, rest) => Hit m :: templateScan fuel' rest
          | None => Lit c :: templateScan fuel' t
          end
      end
  end.

Definition templatePieces (s : string) : list piece :=
  templateScan (String.length s) s.

Fixpoint hits (ps : list piece) : list submatch :=
  match ps with
  | [] => []
  | Lit _ :: ps' => hits ps'
  | Hit m :: ps' => m :: hits ps'
  end.

(** [templateRegex.FindAllStringSubmatch(s, -1)]. *)
Definition templateFindAll (s : string) : list submatch :=
  hits (templatePieces s).

(** The expansion of the replacement template [{{$1}}] at a match. *)
Definition expandGroup1 (m : submatch) : string :=
  "{{" +:+ m1 m +:+ "}}".

Fixpoint replacePieces (ps : list piece) : string :=
  match ps with
  | [] => EmptyString
  | Lit c :: ps' => String c (replacePieces ps')
  | Hit m :: ps' => expandGroup1 m +:+ replacePieces ps'
  end.

(** [templateRegex.ReplaceAllString(s, "{{$1}}")]. *)
Definition templateReplaceAll (s : string) : string :=
  replacePieces (templatePieces s).

(** [optionalRegex.FindStringSubmatch(s)] for [^\[([^.\]]+)(\.\.\.)?]$];
    [None] is Go's [nil]. *)
Definition optionalFind (s : string) : option submatch :=
  match s with
  | String "[" s1 =>
      let (name, s2) := span optByte s1 in
      if isEmpty name then None
      else if String.eqb s2 "]" then Some (Submatch s name "")
      else if String.eqb s2 "...]" then Some (Submatch s name "...")
      else None
  | _ => None
  end.

End Regexp.

(** ** Package [blueprint] *)

Import Strings Regexp.

(** The fields of [jsonschema.Schema] the package sets in a property:
    [Type], [Description] (empty when not set) and [Items], which is only
    ever [&jsonschema.Schema{Type: "string"}] and is kept as the type of
    the items. *)
Record Property : Type := mkProperty
  { pType : string;
    pDescription : string;
    pItems : option string }.

(** The input schema: [Type], [Properties] and [Required]; [None] is the
    nil slice of a schema whose [Required] was never assigned. *)
Record Schema : Type := mkSchema
  { Type_ : string;
    Properties : gmap string Property;
    Required : option (list string) }.

Record template : Type := mkTemplate
  { argIndex : nat;
    name : string;
    description : string;
    isArray : bool;
    isOptional : bool }.

(** Blueprint represents a parsed command template. *)
Record Blueprint : Type := mkBlueprint
  { BaseCommand : string;
    ToolName : string;
    ToolDescription : string;
    InputSchema : Schema;
    args : list string;
    templates : list template }.

#[local] Unset Elimination Schemes.

(** A value of [map[string]interface{}]: a string, a [[]string], a
    [[]interface{}], or a value of any other dynamic type. *)
Inductive Value : Type :=
  | VString (s : string)
  | VStrings (l : list string)
  | VSlice (l : list Value)
  | VOther.

#[local] Set Elimination Schemes.

Fixpoint contains (slice : list string) (item : string) : bool :=
  match slice with
  | [] => false
  | s :: slice' => if String.eqb s item then true else contains slice' item
  end.

(** The variables the loop of [FromArgs] updates. *)
Record parseState : Type := mkParseState
  { descriptionParts : list string;
    properties : gmap string Property;
    required : list string;
    bpTemplates : list template }.

(** The body of the loop over the matches of [templateRegex] in word [i]. *)
Definition parseMatch (i : nat) (st : parseState) (mtch : submatch) : parseState :=
  let varName := ReplaceAll (TrimSpace (m1 mtch)) "-" "_" in
  let description :=
    if negb (isEmpty (m2 mtch)) then TrimSpace (m2 mtch) else "" in
  let existingProp := properties st !! varName in
  let exists_ := bool_decide (is_Some existingProp) in
  let properties' :=
    if negb exists_ || negb (isEmpty description) then
      let prop :=
        mkProperty "string"
                   (if negb (isEmpty description) then description else "")
                   None in
      <[varName := prop]> (properties st)
    else if exists_ && negb (isEmpty description) then
      alter (fun p => mkProperty (pType p) description (pItems p))
            varName (properties st)
    else properties st in
  let required' :=
    if negb (contains (required st) varName)
    then required st ++ [varName]
    else required st in
  let tmpl := mkTemplate i varName description false false in
  mkParseState (descriptionParts st) properties' required'
               (bpTemplates st ++ [tmpl]).

(** The body of the loop of [FromArgs] at word [i]. *)
Definition parseArg (i : nat) (st : parseState) (arg : string) : parseState :=
  match optionalFind arg with
  | Some matches =>
      let varName := ReplaceAll (m1 matches) "-" "_" in
      let isArray_ := String.eqb (m2 matches) "..." in
      if isArray_ then
        let description := "Additional command line arguments" in
        let tmpl := mkTemplate i varName description isArray_ true in
        mkParseState
          (descriptionParts st ++ ["[" +:+ varName +:+ "...]"])
          (<[varName := mkProperty "array" description (Some "string")]>
             (properties st))
          (required st ++ [varName])
          (bpTemplates st ++ [tmpl])
      else
        let tmpl := mkTemplate i varName "" isArray_ true in
        mkParseState
          (descriptionParts st ++ ["[" +:+ varName +:+ "]"])
          (<[varName := mkProperty "string" "" None]> (properties st))
          (required st)
          (bpTemplates st ++ [tmpl])
  | None =>
      let matches := templateFindAll arg in
      let st1 :=
        if 0 <? length matches then fold_left (parseMatch i) matches st
        else st in
      let processedArg :=
        if 0 <? length matches then templateReplaceAll arg else arg in
      mkParseState (descriptionParts st1 ++ [processedArg])
                   (properties st1) (required st1) (bpTemplates st1)
  end.

(** [for i := 1; i < len(args); i++]: [words] are the words from index
    [i] on. *)
Fixpoint parseLoop (i : nat) (words : list string) (st : parseState) : parseState :=
  match words with
  | [] => st
  | arg :: words' => parseLoop (S i) words' (parseArg i st arg)
  end.

(** The blueprint [FromArgs] returns for a vector with base command
    [arg0], from the variables at the end of its loop. *)
Definition blueprintOf (args_ : list string) (arg0 : string)
    (st : parseState) : Blueprint :=
  mkBlueprint
    arg0
    (ReplaceAll arg0 "-" "_")
    ("Run the shell command `" +:+ Join (descriptionParts st) " " +:+ "`")
    (mkSchema "object"
              (if 0 <? size (properties st) then properties st else ∅)
              (if 0 <? length (required st) then Some (required st) else None))
    args_
    (bpTemplates st).

(** The blueprint [FromArgs] returns for the vector without words. *)
Definition emptyBlueprint (args_ : list string) : Blueprint :=
  mkBlueprint "" "" "" (mkSchema "object" ∅ None) args_ [].

(** FromArgs creates a new Blueprint from command arguments. *)
Definition FromArgs (args_ : list string) : Blueprint :=
  match args_ with
  | [] => emptyBlueprint args_
  | arg0 :: words =>
      blueprintOf args_ arg0 (parseLoop 1 words (mkParseState [arg0] ∅ [] []))
  end.

(** The inner loop over a [[]interface{}]: the items that are strings. *)
Fixpoint appendStringItems (result : list string) (arr : list Value) : list string :=
  match arr with
  | [] => result
  | VString str :: arr' => appendStringItems (result ++ [str]) arr'
  | _ :: arr' => appendStringItems result arr'
  end.

(** The body of the loop over the matches of a word in
    [BuildCommandArgs]. *)
Definition substituteMatch (params : gmap string Value)
    (processedArg : string) (mtch : submatch) : string :=
  let varName := ReplaceAll (TrimSpace (m1 mtch)) "-" "_" in
  match params !! varName with
  | Some (VString str) => ReplaceAll processedArg (m0 mtch) str
  | _ => processedArg
  end.

(** [skipArgs] is made empty and never written. *)
Definition skipArgs : gmap nat bool := ∅.

(** The body of the loop of [BuildCommandArgs] at word [i]. *)
Definition buildArg (params : gmap string Value) (i : nat)
    (result : list string) (arg : string) : list string :=
  if default false (skipArgs !! i) then result
  else
    match optionalFind arg with
    | Some matches =>
        let varName := ReplaceAll (m1 matches) "-" "_" in
        let isArray_ := String.eqb (m2 matches) "..." in
        if isArray_ then
          match params !! varName with
          | Some (VStrings arr) =>
              if 0 <? length arr then result ++ arr else result
          | Some (VSlice arr) =>
              if 0 <? length arr then appendStringItems result arr else result
          | _ => result
          end
        else
          match params !! varName with
          | Some (VString str) =>
              if negb (isEmpty str) then result ++ [str] else result
          | _ => result
          end
    | None =>
        let matches := templateFindAll arg in
        let processedArg :=
          if 0 <? length matches
          then fold_left (substituteMatch params) matches arg
          else arg in
        result ++ [processedArg]
    end.

Fixpoint buildLoop (params : gmap string Value) (i : nat)
    (words : list string) (result : list string) : list string :=
  match words with
  | [] => result
  | arg :: words' => buildLoop params (S i) words' (buildArg params i result arg)
  end.

(** BuildCommandArgs builds the actual command arguments from the
    template. *)
Definition BuildCommandArgs (bp : Blueprint) (params : gmap string Value) : list string :=
  buildLoop params 1 (drop 1 (args bp)) [BaseCommand bp].

(** ** Notions used to state the properties *)

(** The schema and lookup key of a required-field marker, and of an
    optional-field word. *)
Definition markerKey (m : submatch) : string :=
  ReplaceAll (TrimSpace (m1 m)) "-" "_".

Definition optionalKey (m : submatch) : string :=
  ReplaceAll (m1 m) "-" "_".

(** The description a required-field marker supplies (empty: none). *)
Definition markerDescription (m : submatch) : string :=
  if negb (isEmpty (m2 m)) then TrimSpace (m2 m) else "".

(** The items of a generic sequence that are strings, in order. *)
Fixpoint stringItems (arr : list Value) : list string :=
  match arr with
  | [] => []
  | VString str :: arr' => str :: stringItems arr'
  | _ :: arr' => stringItems arr'
  end.

(** The text of the word a piece was cut from. *)
Definition sourcePiece (p : piece) : string :=
  match p with
  | Lit c => String c EmptyString
  | Hit m => m0 m
  end.

Fixpoint joinPieces (f : piece -> string) (ps : list piece) : string :=
  match ps with
  | [] => EmptyString
  | p :: ps' => f p +:+ joinPieces f ps'
  end.

(** Word [w], between the words [pre] and [post] of a vector with base
    command [arg0], contributes exactly [entries] to the rendered vector,
    at its position. *)
Definition contributes (params : gmap string Value) (arg0 : string)
    (pre : list string) (w : string) (post : list string)
    (entries : list string) : Prop :=
  BuildCommandArgs (FromArgs (arg0 :: pre ++ w :: post)) params
  = BuildCommandArgs (FromArgs (arg0 :: pre)) params
      ++ entries
      ++ drop 1 (BuildCommandArgs (FromArgs (arg0 :: post)) params).

(** A word without placeholder syntax: it does not match the optional
    grammar and contains no required-field marker. *)
Definition plainWord (w : string) : Prop :=
  optionalFind w = None /\ templateFindAll w = [].

(** The display form of a word: of an optional-field word, its
    normalized name in brackets, with the dots of an array; of any other
    word, the word with every marker replaced by the captured name, as
    written, in double braces. *)
Definition displayPiece (p : piece) : string :=
  match p with
  | Lit c => String c EmptyString
  | Hit m => "{{" +:+ m1 m +:+ "}}"
  end.

Definition displayForm (w : string) : string :=
  match optionalFind w with
  | Some m =>
      if String.eqb (m2 m) "..." then "[" +:+ optionalKey m +:+ "...]"
      else "[" +:+ optionalKey m +:+ "]"
  | None => joinPieces displayPiece (templatePieces w)
  end.

(** The display form with the normalized name in the braces. *)
Definition displayPieceNormalized (p : piece) : string :=
  match p with
  | Lit c => String c EmptyString
  | Hit m => "{{" +:+ markerKey m +:+ "}}"
  end.

Definition displayFormNormalized (w : string) : string :=
  match optionalFind w with
  | Some m =>
      if String.eqb (m2 m) "..." then "[" +:+ optionalKey m +:+ "...]"
      else "[" +:+ optionalKey m +:+ "]"
  | None => joinPieces displayPieceNormalized (templatePieces w)
  end.

(** The text of a marker, from its groups. *)
Definition markerText (m : submatch) : string :=
  "{{" +:+ m1 m
       +:+ (if isEmpty (m2 m) then "" else "#" +:+ m2 m) +:+ "}}".

(** The names the words of a vector introduce, by kind of placeholder and
    in scan order. *)
Definition arrayKeysOf (w : string) : list string :=
  match optionalFind w with
  | Some m => if String.eqb (m2 m) "..." then [optionalKey m] else []
  | None => []
  end.

Definition optionalKeysOf (w : string) : list string :=
  match optionalFind w with
  | Some m => if String.eqb (m2 m) "..." then [] else [optionalKey m]
  | None => []
  end.

Definition markersOf (w : string) : list submatch :=
  match optionalFind w with
  | Some _ => []
  | None => templateFindAll w
  end.

Definition arrayKeys (words : list string) : list string :=
  concat (map arrayKeysOf words).

Definition optionalKeys (words : list string) : list string :=
  concat (map optionalKeysOf words).

Definition markers (words : list string) : list submatch :=
  concat (map markersOf words).

Definition markerKeys (words : list string) : list string :=
  map markerKey (markers words).

(** Membership in the required list of a schema. *)
Definition inRequired (n : string) (sch : Schema) : Prop :=
  match Required sch with
  | Some l => n ∈ l
  | None => False
  end.

(** The descriptions the markers named [n] supply, in scan order, and the
    last one of them that is not empty (empty when there is none). *)
Definition descriptionsOf (n : string) (words : list string) : list string :=
  map markerDescription
      (filter (fun m => markerKey m = n) (markers words)).

Definition lastNonEmpty (ds : list string) : string :=
  fold_left (fun acc d => if isEmpty d then acc else d) ds "".

(** A word rendered span by span: every marker whose name is bound to a
    string gives way to that string, the other bytes stay. *)
Definition substitutePiece (params : gmap string Value) (p : piece) : string :=
  match p with
  | Lit c => String c EmptyString
  | Hit m =>
      match params !! markerKey m with
      | Some (VString str) => str
      | _ => m0 m
      end
  end.

Definition renderOpaque (params : gmap string Value) (w : string) : string :=
  joinPieces (substitutePiece params) (templatePieces w).

(** The property of a name after the markers with the descriptions [ds]:
    none before the first marker, then a string property described by the
    last description that is not empty. *)
Definition propertyAfter (ds : list string) : option Property :=
  match ds with
  | [] => None
  | _ => Some (mkProperty "string" (lastNonEmpty ds) None)
  end.

(** [m] is a match of [templateRegex] somewhere. *)
Definition isMatch (m : submatch) : Prop :=
  exists s rest, templateMatchAt s = Some (m, rest).

(** ** The loops with their index expressions

    [FromArgs] and [BuildCommandArgs] return no error; what could stop
    them is the run-time panic of an index out of range, at [args[0]],
    [args[i]] or [bp.args[i]].  Here the loops are written with their
    counter and condition, and an index expression that would panic gives
    [None].  The loops get as many steps as the vector has words. *)
Definition index (l : list string) (i : nat) : option string := l !! i.

Fixpoint parseLoopChecked (steps i : nat) (args_ : list string)
    (st : parseState) : option parseState :=
  if i <? length args_ then
    match steps with
    | O => None
    | S steps' =>
        arg ← index args_ i;
        parseLoopChecked steps' (S i) args_ (parseArg i st arg)
    end
  else Some st.

Definition FromArgsChecked (args_ : list string) : option Blueprint :=
  if length args_ =? 0 then Some (emptyBlueprint args_)
  else
    arg0 ← index args_ 0;
    st ← parseLoopChecked (length args_) 1 args_ (mkParseState [arg0] ∅ [] []);
    Some (blueprintOf args_ arg0 st).

Fixpoint buildLoopChecked (params : gmap string Value) (steps i : nat)
    (args_ : list string) (result : list string) : option (list string) :=
  if i <? length args_ then
    match steps with
    | O => None
    | S steps' =>
        arg ← index args_ i;
        buildLoopChecked params steps' (S i) args_ (buildArg params i result arg)
    end
  else Some result.

Definition BuildCommandArgsChecked (bp : Blueprint)
    (params : gmap string Value) : option (list string) :=
  buildLoopChecked params (length (args bp)) 1 (args bp) [BaseCommand bp].

(** A parameter that is missing or of the wrong type: not a string, or
    not a sequence. *)
Definition notString (v : option Value) : Prop :=
  forall str, v <> Some (VString str).

Definition notSequence (v : option Value) : Prop :=
  forall v', v = Some v' ->
    (forall l, v' <> VStrings l) /\ (forall l, v' <> VSlice l).

(** ** File [types.go]: tokenized shell words and their display *)

Module Types.

(** TextToken represents literal text in a shell word. *)
Record TextToken : Type := mkTextToken
  { Value : string }.

(** FieldToken represents a template field in a shell word. *)
Record FieldToken : Type := mkFieldToken
  { Name : string;
    Description : string;
    Required : bool;
    OriginalFlag : string;
    OriginalName : string }.

(** A value of the interface [Token]: a [TextToken], a [FieldToken], or
    anything else that has a method [String] (a pointer to one of the two,
    a value of another type) or nil.  Of such an other value only the
    result of [String] matters, [None] when the call panics (the nil
    interface, a nil pointer). *)
Inductive Token : Type :=
  | Text (t : TextToken)
  | Field (t : FieldToken)
  | Other (str : option string).

Definition TextToken_String (t : TextToken) : string := Value t.

Definition FieldToken_String (t : FieldToken) : string :=
  if Required t then "{{" +:+ Name t +:+ "}}" else "[" +:+ Name t +:+ "]".

(** The call [t.String()] on a value of the interface. *)
Definition Token_String (t : Token) : option string :=
  match t with
  | Text t => Some (TextToken_String t)
  | Field t => Some (FieldToken_String t)
  | Other str => str
  end.

(** The schema of this blueprint is made elsewhere: the map [Properties]
    may hold a nil pointer for a key, [Some None] at that key. *)
Record Schema : Type := mkSchema
  { Properties : gmap string (option Property) }.

(** Blueprint represents a parsed command template; [InputSchema] is a
    pointer, [None] when nil.  The methods below are modelled for a
    receiver that is a blueprint, not the nil pointer. *)
Record Blueprint : Type := mkBlueprint
  { BaseCommand : string;
    InputSchema : option Schema;
    ShellWords : list (list Token) }.

(** GetBaseCommand returns the base command. *)
Definition GetBaseCommand (bp : Blueprint) : string := BaseCommand bp.

(** renderFieldTokenForDisplay renders a single field token for display.
    The schema is only dereferenced for an optional field without flag:
    [None] is the panic of [bp.InputSchema.Properties] on a nil schema, or
    of [schema.Type] on a nil entry of the map. *)
Definition renderFieldTokenForDisplay (bp : Blueprint) (token : FieldToken)
    : option string :=
  if negb (isEmpty (OriginalFlag token))
  then Some ("[" +:+ OriginalFlag token +:+ "]")
  else if Required token then
    let name :=
      if negb (isEmpty (OriginalName token)) then OriginalName token
      else Name token in
    Some ("{{" +:+ name +:+ "}}")
  else
    let normalizedName := ReplaceAll (Name token) "-" "_" in
    match InputSchema bp with
    | None => None
    | Some sch =>
        match Properties sch !! normalizedName with
        | Some (Some schema) =>
            if String.eqb (pType schema) "array"
            then Some ("[" +:+ normalizedName +:+ "...]")
            else Some ("[" +:+ normalizedName +:+ "]")
        | Some None => None
        | None => Some ("[" +:+ normalizedName +:+ "]")
        end
    end.

(** The loop of [renderTokensForDisplay] over the tokens, writing to the
    [strings.Builder]; the type switch has no case for a token that is
    neither a [TextToken] nor a [FieldToken]. *)
Fixpoint writeTokens (bp : Blueprint) (tokens : list Token)
    (result : string) : option string :=
  match tokens with
  | [] => Some result
  | Text t :: tokens' => writeTokens bp tokens' (result +:+ Value t)
  | Field t :: tokens' =>
      s ← renderFieldTokenForDisplay bp t;
      writeTokens bp tokens' (result +:+ s)
  | Other _ :: tokens' => writeTokens bp tokens' result
  end.

(** renderTokensForDisplay renders tokens for display purposes. *)
Definition renderTokensForDisplay (bp : Blueprint) (tokens : list Token)
    : option string :=
  match tokens with
  | [Field fieldToken] => renderFieldTokenForDisplay bp fieldToken
  | [t] => Token_String t
  | _ => writeTokens bp tokens ""
  end.

(** GetCommandFormat returns the command format without the "Run the
    shell command" prefix. *)
Definition GetCommandFormat (bp : Blueprint) : option string :=
  parts ← mapM (renderTokensForDisplay bp) (ShellWords bp);
  Some (Join parts " ").

(** GetInputSchema returns the input schema. *)
Definition GetInputSchema (bp : Blueprint) : option Schema := InputSchema bp.

End Types.

(** ** Further notions used to state the properties *)

(** Byte [c] occurs in [s]. *)
Fixpoint hasByte (c : ascii) (s : string) : bool :=
  match s with
  | EmptyString => false
  | String a t => Ascii.eqb a c || hasByte c t
  end.

(** The word is an optional-field word. *)
Definition isOptionalWord (w : string) : bool :=
  match optionalFind w with Some _ => true | None => false end.

(** The key an optional-field word looks up, for any other word none. *)
Definition wordOptionalKeys (w : string) : list string :=
  match optionalFind w with
  | Some m => [optionalKey m]
  | None => []
  end.

(** All names a vector looks up when rendered. *)
Definition lookupKeys (words : list string) : list string :=
  concat (map wordOptionalKeys words) ++ markerKeys words.

(** The first occurrences of the elements of a list, in order. *)
Definition firstOccurrences (l : list string) : list string :=
  rev (remove_dups (rev l)).

(** What one token shows in the display of a shell word of several
    tokens; a token that is neither a text nor a field shows nothing. *)
Definition tokenDisplay (bp : Types.Blueprint) (t : Types.Token) : string :=
  match t with
  | Types.Text t => Types.Value t
  | Types.Field t => default "" (Types.renderFieldTokenForDisplay bp t)
  | Types.Other _ => ""
  end.

(** [strings.Builder] at the end: the texts one after the other. *)
Fixpoint concatStrings (l : list string) : string :=
  match l with
  | [] => EmptyString
  | x :: l' => x +:+ concatStrings l'
  end.

(** The display of a shell word: of a word that is one token of another
    kind, what its method [String] returns; of any other word, the display
    of its tokens one after the other. *)
Definition wordDisplay (bp : Types.Blueprint) (tokens : list Types.Token)
    : string :=
  match tokens with
  | [Types.Other (Some str)] => str
  | _ => concatStrings (map (tokenDisplay bp) tokens)
  end.

(** The blueprint has a schema and no entry of its properties is nil. *)
Definition schemaWithoutNil (bp : Types.Blueprint) : Prop :=
  exists sch,
    Types.InputSchema bp = Some sch
    /\ forall key, Types.Properties sch !! key <> Some None.

(** A string byte by byte. *)
Fixpoint mapBytes (f : ascii -> ascii) (s : string) : string :=
  match s with
  | EmptyString => EmptyString
  | String c t => String (f c) (mapBytes f t)
  end.

Definition hyphenToUnderscore (c : ascii) : ascii :=
  if Ascii.eqb c "-" then "_"%char else c.

(** A word that is no optional-field word and whose markers carry no
    description. *)
Definition wordWithoutDescription (w : string) : Prop :=
  optionalFind w = None /\ forall m, m ∈ templateFindAll w -> m2 m = "".

(** The entries of the field registry that word [w] at index [i] gives. *)
Definition templatesOf (i : nat) (w : string) : list template :=
  match optionalFind w with
  | Some m =>
      if String.eqb (m2 m) "..."
      then [mkTemplate i (optionalKey m) "Additional command line arguments"
                       true true]
      else [mkTemplate i (optionalKey m) "" false true]
  | None =>
      map (fun m => mkTemplate i (markerKey m) (markerDescription m) false false)
          (templateFindAll w)
  end.

(** ** Notions for the words in which inserted values stay as they are *)

(** The byte [{] occurs in a word only as the two opening braces of its
    markers: no byte outside the markers is one, and no captured name or
    description holds one. *)
Definition pieceWithoutBrace (p : piece) : bool :=
  match p with
  | Lit c => negb (Ascii.eqb c "{")
  | Hit m => negb (hasByte "{" (m1 m)) && negb (hasByte "{" (m2 m))
  end.

Definition braceOnlyOpensMarkers (w : string) : bool :=
  forallb pieceWithoutBrace (templatePieces w).

(** No string bound to the name of a marker of the word holds the byte
    [{]. *)
Definition valueWithoutBrace (params : gmap string Value) (m : submatch) : bool :=
  match params !! markerKey m with
  | Some (VString str) => negb (hasByte "{" str)
  | _ => true
  end.

Definition valuesWithoutBrace (params : gmap string Value) (w : string) : bool :=
  forallb (valueWithoutBrace params) (templateFindAll w).

(** A word on the way: the markers whose text is in [done] have been
    processed, the others stand as written. *)
Definition stagePiece (params : gmap string Value) (done : list string)
    (p : piece) : string :=
  match p with
  | Lit c => String c EmptyString
  | Hit m =>
      if decide (m0 m ∈ done) then substitutePiece params (Hit m) else m0 m
  end.

(** * Properties *)

(** ** The model on the examples of the documentation *)

Example TrimSpace_page : TrimSpace "  page  " = "page".
Proof. reflexivity. Qed.

Example ReplaceAll_hyphens : ReplaceAll "a-b--c" "-" "_" = "a_b__c".
Proof. reflexivity. Qed.

Example ReplaceAll_leftmost : ReplaceAll "xaaay" "aa" "b" = "xbay".
Proof. reflexivity. Qed.

Example templateFindAll_groups :
  templateFindAll "{{{a}} {{#x}} {{a#}} {{a#b}c}} {{ a-b # c#d }}"
  = [Submatch "{{{a}}" "{a" ""; Submatch "{{ a-b # c#d }}" " a-b " " c#d "].
Proof. reflexivity. Qed.

Example optionalFind_words :
  optionalFind "[args...]" = Some (Submatch "[args...]" "args" "...")
  /\ optionalFind "[my-opt]" = Some (Submatch "[my-opt]" "my-opt" "")
  /\ optionalFind "[a.b]" = None
  /\ optionalFind "[]" = None
  /\ optionalFind "x[a]" = None.
Proof. repeat split; reflexivity. Qed.

Example echo_args :
  let bp := FromArgs ["echo"; "hello"; "[args...]"] in
  ToolName bp = "echo"
  /\ ToolDescription bp = "Run the shell command `echo hello [args...]`"
  /\ Properties (InputSchema bp) !! "args"
     = Some (mkProperty "array" "Additional command line arguments" (Some "string"))
  /\ Required (InputSchema bp) = Some ["args"]
  /\ BuildCommandArgs bp {["args" := VSlice [VString "world"]]}
     = ["echo"; "hello"; "world"]
  /\ BuildCommandArgs bp ∅ = ["echo"; "hello"].
Proof. repeat split; reflexivity. Qed.

Example echo_text :
  let bp := FromArgs ["echo"; "{{text#the text to echo}}"] in
  ToolDescription bp = "Run the shell command `echo {{text}}`"
  /\ Properties (InputSchema bp) !! "text"
     = Some (mkProperty "string" "the text to echo" None)
  /\ BuildCommandArgs bp {["text" := VString "Hello Blueprint!"]}
     = ["echo"; "Hello Blueprint!"].
Proof. repeat split; reflexivity. Qed.

Example simon_says :
  BuildCommandArgs (FromArgs ["echo"; "simon says {{text#desc}}"])
                   {["text" := VString "Hello World"]}
  = ["echo"; "simon says Hello World"].
Proof. reflexivity. Qed.

(** ** Strings *)

Lemma sapp_cons (c : ascii) (s t : string) : String c s +:+ t = String c (s +:+ t).
Proof. reflexivity. Qed.

Lemma sapp_nil_r (s : string) : s +:+ "" = s.
Proof. induction s as [|c s IH]; [reflexivity|]. rewrite sapp_cons, IH. reflexivity. Qed.

Lemma sapp_assoc (s t u : string) : (s +:+ t) +:+ u = s +:+ (t +:+ u).
Proof.
  induction s as [|c s IH]; [reflexivity|].
  rewrite !sapp_cons, IH. reflexivity.
Qed.

Lemma slength_app (s t : string) :
  String.length (s +:+ t) = String.length s + String.length t.
Proof.
  induction s as [|c s IH]; [reflexivity|].
  rewrite sapp_cons. simpl. rewrite IH. reflexivity.
Qed.

(** ** The rendering loop *)

Lemma skipArgs_never (i : nat) : default false (skipArgs !! i) = false.
Proof. unfold skipArgs. rewrite lookup_empty. reflexivity. Qed.

Lemma appendStringItems_app (arr : list Value) (result : list string) :
  appendStringItems result arr = result ++ stringItems arr.
Proof.
  revert result. induction arr as [|v arr IH]; intros result; simpl.
  - by rewrite app_nil_r.
  - destruct v; rewrite IH; try reflexivity.
    by rewrite <- app_assoc.
Qed.

Section Rendering.

Context (params : gmap string Value).

(** A word appends its entries to the result and depends neither on the
    result nor on its index. *)
Lemma buildArg_app (i : nat) (result : list string) (arg : string) :
  buildArg params i result arg = result ++ buildArg params 1 [] arg.
Proof.
  unfold buildArg. rewrite !skipArgs_never.
  destruct (optionalFind arg) as [m|]; [|reflexivity].
  destruct (String.eqb (m2 m) "...").
  - destruct (params !! ReplaceAll (m1 m) "-" "_") as [[s|l|l|]|];
      try (by rewrite app_nil_r).
    + destruct (0 <? length l); [reflexivity | by rewrite app_nil_r].
    + destruct (0 <? length l); [|by rewrite app_nil_r].
      by rewrite !appendStringItems_app.
  - destruct (params !! ReplaceAll (m1 m) "-" "_") as [[s|l|l|]|];
      try (by rewrite app_nil_r).
    destruct (negb (isEmpty s)); [reflexivity | by rewrite app_nil_r].
Qed.

Lemma buildLoop_app (words : list string) :
  forall (i : nat) (result : list string),
    buildLoop params i words result
    = result ++ concat (map (buildArg params 1 []) words).
Proof.
  induction words as [|w words IH]; intros i result; simpl.
  - by rewrite app_nil_r.
  - rewrite IH, (buildArg_app i result w), <- app_assoc. reflexivity.
Qed.

Lemma FromArgs_args (args_ : list string) : args (FromArgs args_) = args_.
Proof. destruct args_; reflexivity. Qed.

Lemma FromArgs_BaseCommand (arg0 : string) (words : list string) :
  BaseCommand (FromArgs (arg0 :: words)) = arg0.
Proof. reflexivity. Qed.

(** Rendering is word by word: the base command, then the entries of each
    word in order. *)
Lemma BuildCommandArgs_words (arg0 : string) (words : list string) :
  BuildCommandArgs (FromArgs (arg0 :: words)) params
  = arg0 :: concat (map (buildArg params 1 []) words).
Proof.
  unfold BuildCommandArgs. rewrite FromArgs_args, FromArgs_BaseCommand.
  simpl drop. rewrite buildLoop_app. reflexivity.
Qed.

Lemma contributes_buildArg (arg0 : string) (pre post : list string)
    (w : string) :
  contributes params arg0 pre w post (buildArg params 1 [] w).
Proof.
  unfold contributes. rewrite !BuildCommandArgs_words.
  rewrite map_app, concat_app. reflexivity.
Qed.

Lemma buildArg_plain (w : string) :
  plainWord w -> buildArg params 1 [] w = [w].
Proof.
  intros [Hopt Hall]. unfold buildArg.
  rewrite skipArgs_never, Hopt, Hall. reflexivity.
Qed.

End Rendering.

(** C10.  The zero-element vector: every string field of the blueprint is
    empty (the tool description has no prefix), the schema has no property
    and no required list, and rendering gives the vector holding one empty
    string, whatever the parameters. *)
Theorem FromArgs_empty_vector (params : gmap string Value) :
  BaseCommand (FromArgs []) = ""
  /\ ToolName (FromArgs []) = ""
  /\ ToolDescription (FromArgs []) = ""
  /\ Type_ (InputSchema (FromArgs [])) = "object"
  /\ Properties (InputSchema (FromArgs [])) = ∅
  /\ Required (InputSchema (FromArgs [])) = None
  /\ BuildCommandArgs (FromArgs []) params = [""].
Proof. repeat split; reflexivity. Qed.

(** C2, as stated, fails at the empty vector: it has no word at all, and
    is rendered as the vector holding one empty string. *)
Lemma identity_law_fails_on_empty_vector :
  ~ (forall args_ : list string,
        Forall plainWord args_ ->
        BuildCommandArgs (FromArgs args_) ∅ = args_).
Proof.
  intros H. specialize (H [] (List.Forall_nil _)). discriminate H.
Qed.

(** C2, amended.  A vector with a base command whose further words have
    no placeholder syntax is rendered, with the empty parameter mapping,
    as itself. *)
Theorem identity_law (args_ : list string) :
  args_ <> [] ->
  Forall plainWord (drop 1 args_) ->
  BuildCommandArgs (FromArgs args_) ∅ = args_.
Proof.
  intros Hne Hplain. destruct args_ as [|arg0 words]; [congruence|].
  rewrite BuildCommandArgs_words. f_equal.
  change (Forall plainWord words) in Hplain. clear Hne.
  induction Hplain as [|w ws Hw _ IH]; [reflexivity|].
  simpl. rewrite (buildArg_plain _ _ Hw), IH. reflexivity.
Qed.

Lemma identity_law_witness :
  BuildCommandArgs (FromArgs ["say"; "-v"; "siri"]) ∅ = ["say"; "-v"; "siri"].
Proof.
  apply (identity_law ["say"; "-v"; "siri"]).
  - discriminate.
  - simpl. repeat constructor.
Defined.

(** C6.  An OptionalArray word contributes, at its position, the elements
    of the sequence bound to its normalized name, each as its own entry
    and in order; of a generic sequence only the items that are strings;
    and nothing when the name is unbound or bound to an empty sequence. *)
Theorem optional_array_word params (arg0 : string) (pre post : list string)
    (w : string) (m : submatch) :
  optionalFind w = Some m ->
  m2 m = "..." ->
  (forall l : list string,
      l <> [] -> params !! optionalKey m = Some (VStrings l) ->
      contributes params arg0 pre w post l)
  /\ (forall l : list Value,
      l <> [] -> params !! optionalKey m = Some (VSlice l) ->
      contributes params arg0 pre w post (stringItems l))
  /\ (params !! optionalKey m = None
      \/ params !! optionalKey m = Some (VStrings [])
      \/ params !! optionalKey m = Some (VSlice []) ->
      contributes params arg0 pre w post []).
Proof.
  intros Hopt Hdots.
  pose proof (contributes_buildArg params arg0 pre post w) as Hc.
  unfold buildArg in Hc. rewrite skipArgs_never, Hopt, Hdots in Hc.
  change (ReplaceAll (m1 m) "-" "_") with (optionalKey m) in Hc.
  simpl in Hc. repeat split.
  - intros l Hl Hb. rewrite Hb in Hc. destruct l; [congruence|exact Hc].
  - intros l Hl Hb. rewrite Hb in Hc. destruct l; [congruence|].
    rewrite appendStringItems_app in Hc. exact Hc.
  - intros [Hb|[Hb|Hb]]; rewrite Hb in Hc; exact Hc.
Qed.

Lemma optional_array_word_witness :
  contributes {[ "args" := VStrings ["a"; "b"] ]} "echo" ["hello"] "[args...]" ["!"]
              ["a"; "b"]
  /\ contributes {[ "args" := VSlice [VString "a"; VOther; VString "b"] ]}
                 "echo" ["hello"] "[args...]" ["!"] ["a"; "b"]
  /\ contributes ∅ "echo" ["hello"] "[args...]" ["!"] [].
Proof.
  split; [|split].
  - destruct (optional_array_word {[ "args" := VStrings ["a"; "b"] ]}
                "echo" ["hello"] ["!"] "[args...]"
                (Submatch "[args...]" "args" "...") eq_refl eq_refl)
      as (H & _ & _).
    apply H; [discriminate | reflexivity].
  - destruct (optional_array_word
                {[ "args" := VSlice [VString "a"; VOther; VString "b"] ]}
                "echo" ["hello"] ["!"] "[args...]"
                (Submatch "[args...]" "args" "...") eq_refl eq_refl)
      as (_ & H & _).
    apply (H [VString "a"; VOther; VString "b"]); [discriminate | reflexivity].
  - destruct (optional_array_word ∅ "echo" ["hello"] ["!"] "[args...]"
                (Submatch "[args...]" "args" "...") eq_refl eq_refl)
      as (_ & _ & H).
    apply H. left. reflexivity.
Defined.

(** C7.  A plain Optional word contributes, at its position, the
    non-empty string bound to its normalized name as a single entry, and
    nothing when the name is unbound, bound to the empty string, or bound
    to a value that is not a string. *)
Theorem optional_word params (arg0 : string) (pre post : list string)
    (w : string) (m : submatch) :
  optionalFind w = Some m ->
  m2 m <> "..." ->
  (forall str : string,
      str <> "" -> params !! optionalKey m = Some (VString str) ->
      contributes params arg0 pre w post [str])
  /\ (params !! optionalKey m = None
      \/ params !! optionalKey m = Some (VString "")
      \/ (exists v, params !! optionalKey m = Some v
                    /\ forall str, v <> VString str) ->
      contributes params arg0 pre w post []).
Proof.
  intros Hopt Hdots.
  pose proof (contributes_buildArg params arg0 pre post w) as Hc.
  unfold buildArg in Hc. rewrite skipArgs_never, Hopt in Hc.
  apply String.eqb_neq in Hdots. rewrite Hdots in Hc.
  change (ReplaceAll (m1 m) "-" "_") with (optionalKey m) in Hc.
  simpl in Hc. split.
  - intros str Hstr Hb. rewrite Hb in Hc. destruct str; [congruence|exact Hc].
  - intros [Hb|[Hb|(v & Hb & Hv)]]; rewrite Hb in Hc; try exact Hc.
    destruct v as [str| | |]; try exact Hc. by destruct (Hv str).
Qed.

Lemma optional_word_witness :
  contributes {[ "name" := VString "x" ]} "echo" ["hello"] "[name]" ["!"] ["x"]
  /\ contributes {[ "name" := VOther ]} "echo" ["hello"] "[name]" ["!"] [].
Proof.
  assert (Hdots : m2 (Submatch "[name]" "name" "") <> "...") by discriminate.
  split.
  - destruct (optional_word {[ "name" := VString "x" ]}
                "echo" ["hello"] ["!"] "[name]"
                (Submatch "[name]" "name" "") eq_refl Hdots) as (H & _).
    apply H; [discriminate | reflexivity].
  - destruct (optional_word {[ "name" := VOther ]}
                "echo" ["hello"] ["!"] "[name]"
                (Submatch "[name]" "name" "") eq_refl Hdots) as (_ & H).
    apply H. right; right. exists VOther. split; [reflexivity | discriminate].
Defined.

(** ** The matcher *)

Lemma span_app (p : ascii -> bool) (s a b : string) :
  span p s = (a, b) -> s = a +:+ b.
Proof.
  revert a b. induction s as [|c s IH]; intros a b; simpl.
  - intros [= <- <-]. reflexivity.
  - destruct (p c).
    + destruct (span p s) as [a' b'] eqn:E. intros [= <- <-].
      rewrite sapp_cons, <- (IH a' b' eq_refl). reflexivity.
    + intros [= <- <-]. reflexivity.
Qed.

(** A byte the matcher compares with [ch]: either it is [ch], or the
    match in the goal fails. *)
Ltac byte_is c ch :=
  destruct (Ascii.eqb_spec c ch) as [->|?];
  [|destruct c as [[] [] [] [] [] [] [] []]; try discriminate; congruence].

(** What a successful anchored match looks like: the word starts with the
    text of the match, which is a marker with a non-empty name. *)
Lemma templateMatchAt_Some (s : string) (m : submatch) (rest : string) :
  templateMatchAt s = Some (m, rest) ->
  s = m0 m +:+ rest /\ m0 m = markerText m /\ m1 m <> "".
Proof.
  unfold templateMatchAt, markerText.
  destruct s as [|a s]; [discriminate|].
  byte_is a "{"%char.
  destruct s as [|b s1]; [discriminate|].
  byte_is b "{"%char.
  destruct (span nameByte s1) as [nm s2] eqn:En.
  apply span_app in En. subst s1.
  destruct nm as [|n0 nm]; [discriminate|]. simpl isEmpty. cbv iota.
  destruct s2 as [|c s2]; [discriminate|].
  destruct (Ascii.eqb_spec c "}") as [->|Hc].
  - destruct s2 as [|d s2]; [discriminate|].
    byte_is d "}"%char.
    intros [= <- <-]. simpl. repeat split; [|discriminate].
    rewrite !sapp_assoc. reflexivity.
  - byte_is c "#"%char.
    destruct (span descByte s2) as [ds s4] eqn:Ed.
    apply span_app in Ed. subst s2.
    destruct ds as [|d0 ds]; [discriminate|]. simpl isEmpty. cbv iota.
    destruct s4 as [|e s4]; [discriminate|].
    byte_is e "}"%char.
    destruct s4 as [|f s4]; [discriminate|].
    byte_is f "}"%char.
    intros [= <- <-]. simpl. repeat split; [|discriminate].
    rewrite !sapp_assoc. reflexivity.
Qed.

Lemma templateMatchAt_shorter (s : string) (m : submatch) (rest : string) :
  templateMatchAt s = Some (m, rest) -> String.length rest < String.length s.
Proof.
  intros H. apply templateMatchAt_Some in H as (Hs & Hm & _).
  rewrite Hs, Hm, slength_app. unfold markerText.
  rewrite sapp_cons. simpl. lia.
Qed.

(** The search never runs out of steps: any number of steps from the
    length of the word on gives the same pieces. *)
Lemma templateScan_fuel (fuel1 : nat) :
  forall (fuel2 : nat) (s : string),
    String.length s <= fuel1 -> String.length s <= fuel2 ->
    templateScan fuel1 s = templateScan fuel2 s.
Proof.
  induction fuel1 as [|fuel1 IH]; intros fuel2 s H1 H2.
  - destruct s; [|simpl in H1; lia]. destruct fuel2; reflexivity.
  - destruct s as [|c t]; [destruct fuel2; reflexivity|].
    destruct fuel2 as [|fuel2]; [simpl in H2; lia|].
    simpl in H1, H2. cbn [templateScan].
    destruct (templateMatchAt (String c t)) as [[m rest]|] eqn:E.
    + apply templateMatchAt_shorter in E. simpl in E.
      f_equal. apply IH; lia.
    + f_equal. apply IH; lia.
Qed.

(** The pieces of a word, one step at a time. *)
Lemma templatePieces_step (c : ascii) (t : string) :
  templatePieces (String c t)
  = match templateMatchAt (String c t) with
    | Some (m, rest) => Hit m :: templatePieces rest
    | None => Lit c :: templatePieces t
    end.
Proof.
  unfold templatePieces. cbn [String.length templateScan].
  destruct (templateMatchAt (String c t)) as [[m rest]|] eqn:E.
  - apply templateMatchAt_shorter in E. simpl in E.
    f_equal. apply templateScan_fuel; lia.
  - reflexivity.
Qed.

(** Induction on a word along the steps of the search. *)
Lemma templatePieces_ind (P : string -> Prop) :
  P "" ->
  (forall c t, templateMatchAt (String c t) = None -> P t -> P (String c t)) ->
  (forall s m rest, templateMatchAt s = Some (m, rest) -> P rest -> P s) ->
  forall s, P s.
Proof.
  intros Hnil Hlit Hhit s.
  remember (String.length s) as n eqn:Hn.
  revert s Hn. induction n as [n IH] using lt_wf_ind. intros s Hn.
  destruct s as [|c t]; [exact Hnil|].
  destruct (templateMatchAt (String c t)) as [[m rest]|] eqn:E.
  - apply (Hhit _ _ _ E).
    apply (IH (String.length rest)); [|reflexivity].
    apply templateMatchAt_shorter in E. lia.
  - apply (Hlit _ _ E). apply (IH (String.length t)); [|reflexivity].
    simpl in Hn. lia.
Qed.

Lemma templatePieces_nil : templatePieces "" = [].
Proof. reflexivity. Qed.

Lemma templatePieces_hit (s : string) (m : submatch) (rest : string) :
  templateMatchAt s = Some (m, rest) ->
  templatePieces s = Hit m :: templatePieces rest.
Proof.
  intros E. destruct s as [|c t]; [discriminate|].
  rewrite templatePieces_step, E. reflexivity.
Qed.

Lemma templatePieces_lit (c : ascii) (t : string) :
  templateMatchAt (String c t) = None ->
  templatePieces (String c t) = Lit c :: templatePieces t.
Proof. intros E. rewrite templatePieces_step, E. reflexivity. Qed.

(** The pieces of a word, put together again, are the word. *)
Lemma templatePieces_source (s : string) :
  joinPieces sourcePiece (templatePieces s) = s.
Proof.
  induction s as [|c t E IH|s m rest E IH] using templatePieces_ind.
  - reflexivity.
  - rewrite (templatePieces_lit _ _ E). simpl. rewrite IH. reflexivity.
  - rewrite (templatePieces_hit _ _ _ E). simpl. rewrite IH.
    apply templateMatchAt_Some in E as (-> & _). reflexivity.
Qed.

(** Every match the search reports is a marker with a non-empty name. *)
Lemma templatePieces_marker (s : string) (m : submatch) :
  Hit m ∈ templatePieces s -> m0 m = markerText m /\ m1 m <> "".
Proof.
  induction s as [|c t E IH|s m' rest E IH] using templatePieces_ind.
  - rewrite templatePieces_nil. intros H. by apply elem_of_nil in H.
  - rewrite (templatePieces_lit _ _ E). intros H.
    apply elem_of_cons in H as [H|H]; [discriminate|]. by apply IH.
  - rewrite (templatePieces_hit _ _ _ E). intros H.
    apply elem_of_cons in H as [[= ->]|H]; [|by apply IH].
    apply templateMatchAt_Some in E as (_ & ? & ?). by split.
Qed.

Lemma replacePieces_join (ps : list piece) :
  replacePieces ps = joinPieces displayPiece ps.
Proof.
  induction ps as [|[c|m] ps IH]; simpl; rewrite ?IH; reflexivity.
Qed.

Lemma joinPieces_no_hits (f g : piece -> string) (ps : list piece) :
  (forall c, f (Lit c) = g (Lit c)) ->
  hits ps = [] -> joinPieces f ps = joinPieces g ps.
Proof.
  intros Hfg. induction ps as [|[c|m] ps IH]; simpl; intros H.
  - reflexivity.
  - rewrite Hfg, (IH H). reflexivity.
  - discriminate.
Qed.

Lemma joinPieces_ext (f g : piece -> string) (ps : list piece) :
  (forall p, p ∈ ps -> f p = g p) -> joinPieces f ps = joinPieces g ps.
Proof.
  induction ps as [|p ps IH]; intros H; [reflexivity|]. simpl.
  rewrite (H p) by apply list_elem_of_here.
  rewrite IH by (intros; apply H; by apply list_elem_of_further).
  reflexivity.
Qed.

Lemma elem_of_hits (ps : list piece) (m : submatch) :
  m ∈ hits ps <-> Hit m ∈ ps.
Proof.
  induction ps as [|[c|m'] ps IH]; simpl.
  - split; intros H; by apply elem_of_nil in H.
  - rewrite IH, elem_of_cons. split; [auto|]. intros [[=]|]; auto.
  - rewrite !elem_of_cons, IH. split; [intros [->|]; auto|].
    intros [[= ->]|]; auto.
Qed.

(** ** The parsing loop: description parts *)

Lemma fold_parseMatch_descriptionParts (i : nat) (ms : list submatch) :
  forall st,
    descriptionParts (fold_left (parseMatch i) ms st) = descriptionParts st.
Proof.
  induction ms as [|m ms IH]; intros st; simpl; [reflexivity|].
  rewrite IH. reflexivity.
Qed.

Lemma parseArg_descriptionParts (i : nat) (st : parseState) (w : string) :
  descriptionParts (parseArg i st w) = descriptionParts st ++ [displayForm w].
Proof.
  unfold parseArg, displayForm.
  destruct (optionalFind w) as [m|].
  - fold (optionalKey m). destruct (String.eqb (m2 m) "..."); reflexivity.
  - cbn [descriptionParts].
    destruct (0 <? length (templateFindAll w)) eqn:E.
    + rewrite fold_parseMatch_descriptionParts.
      unfold templateReplaceAll. rewrite replacePieces_join. reflexivity.
    + do 2 f_equal. apply Nat.ltb_ge in E.
      rewrite <- (templatePieces_source w) at 1.
      apply joinPieces_no_hits; [reflexivity|].
      unfold templateFindAll in E.
      destruct (hits (templatePieces w)); [reflexivity | simpl in E; lia].
Qed.

Lemma parseLoop_descriptionParts (words : list string) :
  forall (i : nat) (st : parseState),
    descriptionParts (parseLoop i words st)
    = descriptionParts st ++ map displayForm words.
Proof.
  induction words as [|w words IH]; intros i st; simpl.
  - by rewrite app_nil_r.
  - rewrite IH, parseArg_descriptionParts, <- app_assoc. reflexivity.
Qed.

(** The tool description is the base command and the display forms of the
    words, in order. *)
Lemma ToolDescription_words (arg0 : string) (words : list string) :
  ToolDescription (FromArgs (arg0 :: words))
  = "Run the shell command `"
      +:+ Join (arg0 :: map displayForm words) " " +:+ "`".
Proof.
  unfold FromArgs, blueprintOf. cbn [ToolDescription].
  rewrite parseLoop_descriptionParts. reflexivity.
Qed.

Example display_keeps_the_written_name :
  let bp := FromArgs ["echo"; "{{my-name}}"; "{{ first name # who }}"] in
  ToolDescription bp
  = "Run the shell command `echo {{my-name}} {{ first name }}`"
  /\ Required (InputSchema bp) = Some ["my_name"; "first name"].
Proof. split; reflexivity. Qed.

(** C5, as stated, fails: the marker [{{my-name}}] is displayed as it is
    written, not as [{{my_name}}]. *)
Lemma display_form_is_not_normalized :
  ~ (forall (arg0 : string) (words : list string),
        ToolDescription (FromArgs (arg0 :: words))
        = "Run the shell command `"
            +:+ Join (arg0 :: map displayFormNormalized words) " " +:+ "`").
Proof.
  intros H. specialize (H "echo" ["{{my-name}}"]).
  vm_compute in H. discriminate H.
Qed.

(** C5, amended.  The tool description joins the base command and the
    display forms of the words.  An optional-field word is displayed as
    its normalized name in brackets, with three dots for an array.  Any
    other word is cut into its markers and the bytes between them (which
    put together again give the word); every marker [{{name}}] or
    [{{name#description}}] is displayed as [{{name}}], with the captured
    name as it is written (neither trimmed nor with its hyphens replaced)
    and without the description, and every other byte as itself. *)
Theorem display_form (arg0 : string) (words : list string) :
  ToolDescription (FromArgs (arg0 :: words))
  = "Run the shell command `"
      +:+ Join (arg0 :: map displayForm words) " " +:+ "`"
  /\ (forall w m,
        optionalFind w = Some m ->
        displayForm w
        = if String.eqb (m2 m) "..." then "[" +:+ optionalKey m +:+ "...]"
          else "[" +:+ optionalKey m +:+ "]")
  /\ (forall w,
        optionalFind w = None ->
        displayForm w = joinPieces displayPiece (templatePieces w)
        /\ joinPieces sourcePiece (templatePieces w) = w
        /\ forall m, Hit m ∈ templatePieces w ->
             sourcePiece (Hit m) = markerText m
             /\ displayPiece (Hit m) = "{{" +:+ m1 m +:+ "}}").
Proof.
  split; [apply ToolDescription_words|]. split.
  - intros w m H. unfold displayForm. rewrite H. reflexivity.
  - intros w H. unfold displayForm. rewrite H.
    split; [reflexivity|]. split; [apply templatePieces_source|].
    intros m Hm. apply templatePieces_marker in Hm as [Hm _].
    split; [exact Hm | reflexivity].
Qed.

Lemma display_form_witness :
  displayForm "[my-args...]" = "[my_args...]"
  /\ displayForm "--name={{ first-name # who }}" = "--name={{ first-name }}".
Proof.
  destruct (display_form "echo" []) as (_ & Hopt & Hword). split.
  - apply (Hopt "[my-args...]" (Submatch "[my-args...]" "my-args" "...")).
    reflexivity.
  - destruct (Hword "--name={{ first-name # who }}") as (H & _);
      [reflexivity|].
    rewrite H. reflexivity.
Defined.

(** ** The parsing loop: the required list *)

Lemma contains_elem_of (slice : list string) (item : string) :
  contains slice item = true <-> item ∈ slice.
Proof.
  induction slice as [|s slice IH]; simpl.
  - split; [discriminate|]. intros H. by apply elem_of_nil in H.
  - rewrite elem_of_cons. destruct (String.eqb_spec s item) as [->|Hne].
    + split; auto.
    + rewrite IH. split; [auto|]. intros [->|]; [congruence|auto].
Qed.

Lemma parseMatch_required (i : nat) (st : parseState) (m : submatch) :
  required (parseMatch i st m)
  = if contains (required st) (markerKey m) then required st
    else required st ++ [markerKey m].
Proof.
  unfold parseMatch. cbn [required]. fold (markerKey m).
  destruct (contains (required st) (markerKey m)); reflexivity.
Qed.

Lemma parseMatch_required_elem_of (i : nat) (st : parseState)
    (m : submatch) (n : string) :
  n ∈ required (parseMatch i st m) <-> n ∈ required st \/ n = markerKey m.
Proof.
  rewrite parseMatch_required.
  destruct (contains (required st) (markerKey m)) eqn:E.
  - apply contains_elem_of in E. split; [auto|]. intros [ | -> ]; auto.
  - rewrite elem_of_app, list_elem_of_singleton. reflexivity.
Qed.

(** A marker never duplicates an entry of the required list. *)
Lemma parseMatch_required_NoDup (i : nat) (st : parseState) (m : submatch) :
  NoDup (required st) -> NoDup (required (parseMatch i st m)).
Proof.
  intros H. rewrite parseMatch_required.
  destruct (contains (required st) (markerKey m)) eqn:E; [exact H|].
  apply NoDup_app. split; [exact H|]. split; [|apply NoDup_singleton].
  intros x Hx Hx'. apply list_elem_of_singleton in Hx'. subst x.
  apply contains_elem_of in Hx. congruence.
Qed.

Lemma fold_parseMatch_required_elem_of (i : nat) (ms : list submatch)
    (n : string) :
  forall st,
    n ∈ required (fold_left (parseMatch i) ms st)
    <-> n ∈ required st \/ n ∈ map markerKey ms.
Proof.
  induction ms as [|m ms IH]; intros st; simpl.
  - split; [auto|]. intros [|H]; [auto|]. by apply elem_of_nil in H.
  - rewrite IH, parseMatch_required_elem_of, elem_of_cons. tauto.
Qed.

Lemma parseArg_required_elem_of (i : nat) (st : parseState) (w : string)
    (n : string) :
  n ∈ required (parseArg i st w)
  <-> n ∈ required st \/ n ∈ arrayKeysOf w \/ n ∈ map markerKey (markersOf w).
Proof.
  unfold parseArg, arrayKeysOf, markersOf.
  destruct (optionalFind w) as [m|].
  - fold (optionalKey m). destruct (String.eqb (m2 m) "..."); cbn [required].
    + rewrite elem_of_app. simpl. rewrite elem_of_nil. tauto.
    + simpl. rewrite !elem_of_nil. tauto.
  - cbn [required]. rewrite elem_of_nil.
    destruct (0 <? length (templateFindAll w)) eqn:E.
    + rewrite fold_parseMatch_required_elem_of. tauto.
    + apply Nat.ltb_ge in E.
      destruct (templateFindAll w); [|simpl in E; lia].
      simpl. rewrite elem_of_nil. tauto.
Qed.

Lemma parseLoop_required_elem_of (words : list string) (n : string) :
  forall (i : nat) (st : parseState),
    n ∈ required (parseLoop i words st)
    <-> n ∈ required st \/ n ∈ arrayKeys words \/ n ∈ markerKeys words.
Proof.
  unfold arrayKeys, markerKeys, markers.
  induction words as [|w words IH]; intros i st; simpl.
  - rewrite !elem_of_nil. tauto.
  - rewrite IH, parseArg_required_elem_of, map_app, !elem_of_app. tauto.
Qed.

(** The names in the required list of the schema are those of the
    optional-array words and of the markers. *)
Lemma inRequired_iff (args_ : list string) (n : string) :
  inRequired n (InputSchema (FromArgs args_))
  <-> n ∈ arrayKeys (drop 1 args_) \/ n ∈ markerKeys (drop 1 args_).
Proof.
  destruct args_ as [|arg0 words].
  - unfold inRequired. simpl. rewrite !elem_of_nil. tauto.
  - change (drop 1 (arg0 :: words)) with words.
    unfold inRequired, FromArgs, blueprintOf. cbn [InputSchema Required].
    pose proof (parseLoop_required_elem_of words n 1
                  (mkParseState [arg0] ∅ [] [])) as H.
    cbn [required] in H. rewrite elem_of_nil in H.
    destruct (required (parseLoop 1 words (mkParseState [arg0] ∅ [] [])))
      as [|r rs] eqn:E; simpl.
    + rewrite elem_of_nil in H. tauto.
    + tauto.
Qed.

(** C3.  The name of every optional-array word and of every marker is in
    the required list of the schema, and a name that only plain optional
    words introduce is not. *)
Theorem required_membership (args_ : list string) (n : string) :
  (n ∈ arrayKeys (drop 1 args_) -> inRequired n (InputSchema (FromArgs args_)))
  /\ (n ∈ markerKeys (drop 1 args_) -> inRequired n (InputSchema (FromArgs args_)))
  /\ (n ∈ optionalKeys (drop 1 args_) ->
      n ∉ arrayKeys (drop 1 args_) ->
      n ∉ markerKeys (drop 1 args_) ->
      ~ inRequired n (InputSchema (FromArgs args_))).
Proof.
  rewrite inRequired_iff. tauto.
Qed.

Lemma required_membership_witness :
  inRequired "rest" (InputSchema (FromArgs ["run"; "[rest...]"; "{{ file-name }}"; "[mode]"]))
  /\ inRequired "file_name" (InputSchema (FromArgs ["run"; "[rest...]"; "{{ file-name }}"; "[mode]"]))
  /\ ~ inRequired "mode" (InputSchema (FromArgs ["run"; "[rest...]"; "{{ file-name }}"; "[mode]"])).
Proof.
  split; [|split].
  - destruct (required_membership
                ["run"; "[rest...]"; "{{ file-name }}"; "[mode]"] "rest")
      as (H & _ & _).
    apply H. vm_compute. apply list_elem_of_here.
  - destruct (required_membership
                ["run"; "[rest...]"; "{{ file-name }}"; "[mode]"] "file_name")
      as (_ & H & _).
    apply H. vm_compute. apply list_elem_of_here.
  - destruct (required_membership
                ["run"; "[rest...]"; "{{ file-name }}"; "[mode]"] "mode")
      as (_ & _ & H).
    apply H.
    + vm_compute. apply list_elem_of_here.
    + vm_compute. intros H'. apply elem_of_cons in H' as [H'|H']; [discriminate|].
      by apply elem_of_nil in H'.
    + vm_compute. intros H'. apply elem_of_cons in H' as [H'|H']; [discriminate|].
      by apply elem_of_nil in H'.
Defined.

Lemma fold_parseMatch_required_NoDup (i : nat) (ms : list submatch) :
  forall st,
    NoDup (required st) -> NoDup (required (fold_left (parseMatch i) ms st)).
Proof.
  induction ms as [|m ms IH]; intros st H; simpl; [exact H|].
  by apply IH, parseMatch_required_NoDup.
Qed.

Lemma parseLoop_required_NoDup (words : list string) :
  forall (i : nat) (st : parseState),
    arrayKeys words = [] ->
    NoDup (required st) -> NoDup (required (parseLoop i words st)).
Proof.
  unfold arrayKeys.
  induction words as [|w words IH]; intros i st Ha H; simpl; [exact H|].
  simpl in Ha. apply app_eq_nil in Ha as [Hw Ha].
  apply IH; [exact Ha|]. unfold parseArg. unfold arrayKeysOf in Hw.
  destruct (optionalFind w) as [m|].
  - destruct (String.eqb (m2 m) "..."); [discriminate | exact H].
  - cbn [required]. destruct (0 <? length (templateFindAll w)); [|exact H].
    by apply fold_parseMatch_required_NoDup.
Qed.

(** Markers alone leave no duplicate in the required list. *)
Lemma required_NoDup_without_array_words (args_ : list string) (l : list string) :
  arrayKeys (drop 1 args_) = [] ->
  Required (InputSchema (FromArgs args_)) = Some l -> NoDup l.
Proof.
  destruct args_ as [|arg0 words]; [discriminate|].
  change (drop 1 (arg0 :: words)) with words.
  unfold FromArgs, blueprintOf. cbn [InputSchema Required]. intros Ha.
  destruct (0 <? length _); [|discriminate]. intros [= <-].
  apply parseLoop_required_NoDup; [exact Ha | apply NoDup_nil_2].
Qed.

(** C4 does not hold of the code: an optional-array word appends its name
    to the required list without looking for it there, so that a repeated
    array word, or an array word behind a marker of the same name, leaves
    the name twice in the list. *)
Theorem required_duplicate_by_array_word :
  Required (InputSchema (FromArgs ["cmd"; "[args...]"; "[args...]"]))
  = Some ["args"; "args"]
  /\ Required (InputSchema (FromArgs ["cmd"; "{{args}}"; "[args...]"]))
     = Some ["args"; "args"]
  /\ Required (InputSchema (FromArgs ["cmd"; "{{args}}"; "{{args}}"]))
     = Some ["args"].
Proof. repeat split; reflexivity. Qed.

(** ** The parsing loop: the properties *)

(** What a marker does to the property of its name: it writes a string
    property when there is none or when it has a description, and leaves
    the property alone otherwise. *)
Lemma parseMatch_properties (i : nat) (st : parseState) (m : submatch)
    (n : string) :
  properties (parseMatch i st m) !! n
  = if decide (markerKey m = n) then
      match properties st !! n with
      | Some p =>
          if isEmpty (markerDescription m) then Some p
          else Some (mkProperty "string" (markerDescription m) None)
      | None => Some (mkProperty "string" (markerDescription m) None)
      end
    else properties st !! n.
Proof.
  unfold parseMatch. cbn [properties].
  fold (markerKey m). fold (markerDescription m).
  destruct (decide (markerKey m = n)) as [<-|Hne].
  - destruct (properties st !! markerKey m) as [p|] eqn:E.
    + rewrite bool_decide_eq_true_2 by eauto.
      destruct (isEmpty (markerDescription m)) eqn:Ed; simpl.
      * exact E.
      * rewrite lookup_insert_eq. reflexivity.
    + rewrite bool_decide_eq_false_2 by (intros [? ?]; congruence). simpl.
      rewrite lookup_insert_eq.
      destruct (markerDescription m); reflexivity.
  - destruct (negb (bool_decide (is_Some (properties st !! markerKey m)))
              || negb (isEmpty (markerDescription m))).
    + by rewrite lookup_insert_ne.
    + destruct (bool_decide (is_Some (properties st !! markerKey m))
                && negb (isEmpty (markerDescription m))).
      * by rewrite lookup_alter_ne.
      * reflexivity.
Qed.

Lemma lastNonEmpty_snoc (ds : list string) (d : string) :
  lastNonEmpty (ds ++ [d]) = if isEmpty d then lastNonEmpty ds else d.
Proof. unfold lastNonEmpty. rewrite fold_left_app. reflexivity. Qed.

Lemma propertyAfter_snoc (ds : list string) (d : string) :
  propertyAfter (ds ++ [d])
  = match propertyAfter ds with
    | Some p => if isEmpty d then Some p else Some (mkProperty "string" d None)
    | None => Some (mkProperty "string" d None)
    end.
Proof.
  unfold propertyAfter at 1.
  destruct (ds ++ [d]) as [|x l] eqn:E; [by destruct ds|].
  rewrite <- E, lastNonEmpty_snoc. clear E.
  destruct ds as [|d0 ds]; simpl.
  - destruct d; reflexivity.
  - destruct (isEmpty d); reflexivity.
Qed.

Lemma fold_parseMatch_properties (i : nat) (n : string) (ms : list submatch) :
  forall (st : parseState) (ds : list string),
    properties st !! n = propertyAfter ds ->
    properties (fold_left (parseMatch i) ms st) !! n
    = propertyAfter
        (ds ++ map markerDescription (filter (fun m => markerKey m = n) ms)).
Proof.
  induction ms as [|m ms IH]; intros st ds H; simpl.
  - by rewrite app_nil_r.
  - rewrite filter_cons. destruct (decide (markerKey m = n)) as [Hk|Hk].
    + change (map markerDescription (m :: ?l))
        with ([markerDescription m] ++ map markerDescription l).
      rewrite app_assoc. apply IH.
      rewrite parseMatch_properties, propertyAfter_snoc, H.
      rewrite decide_True by exact Hk. reflexivity.
    + apply IH. rewrite parseMatch_properties, decide_False by exact Hk.
      exact H.
Qed.

Lemma parseArg_properties (i : nat) (n : string) (st : parseState)
    (w : string) (ds : list string) :
  n ∉ arrayKeysOf w -> n ∉ optionalKeysOf w ->
  properties st !! n = propertyAfter ds ->
  properties (parseArg i st w) !! n
  = propertyAfter
      (ds ++ map markerDescription
                 (filter (fun m => markerKey m = n) (markersOf w))).
Proof.
  unfold parseArg, arrayKeysOf, optionalKeysOf, markersOf.
  destruct (optionalFind w) as [m|].
  - fold (optionalKey m). intros Ha Ho H.
    assert (optionalKey m <> n) as Hne.
    { intros <-. destruct (String.eqb (m2 m) "...");
        [apply Ha | apply Ho]; apply list_elem_of_here. }
    rewrite filter_nil. simpl. rewrite app_nil_r.
    destruct (String.eqb (m2 m) "..."); cbn [properties];
      by rewrite lookup_insert_ne.
  - intros _ _ H. cbn [properties].
    destruct (0 <? length (templateFindAll w)) eqn:E.
    + by apply fold_parseMatch_properties.
    + apply Nat.ltb_ge in E.
      destruct (templateFindAll w); [|simpl in E; lia].
      rewrite filter_nil. simpl. by rewrite app_nil_r.
Qed.

Lemma parseLoop_properties (n : string) (words : list string) :
  forall (i : nat) (st : parseState) (ds : list string),
    n ∉ arrayKeys words -> n ∉ optionalKeys words ->
    properties st !! n = propertyAfter ds ->
    properties (parseLoop i words st) !! n
    = propertyAfter (ds ++ descriptionsOf n words).
Proof.
  unfold arrayKeys, optionalKeys, descriptionsOf, markers.
  induction words as [|w words IH]; intros i st ds Ha Ho H; simpl.
  - by rewrite app_nil_r.
  - simpl in Ha, Ho. rewrite elem_of_app in Ha, Ho.
    rewrite filter_app, map_app, app_assoc.
    apply IH; [tauto | tauto |].
    apply parseArg_properties; tauto.
Qed.

Lemma Properties_FromArgs (arg0 : string) (words : list string) :
  Properties (InputSchema (FromArgs (arg0 :: words)))
  = properties (parseLoop 1 words (mkParseState [arg0] ∅ [] [])).
Proof.
  unfold FromArgs, blueprintOf. cbn [InputSchema Properties].
  destruct (0 <? size _) eqn:E; [reflexivity|].
  apply Nat.ltb_ge in E. symmetry. apply map_size_empty_iff. lia.
Qed.

Lemma descriptionsOf_nonempty (n : string) (words : list string) :
  n ∈ markerKeys words -> descriptionsOf n words <> [].
Proof.
  unfold markerKeys, descriptionsOf. intros H.
  apply list_elem_of_fmap in H as (m & -> & Hm).
  intros Hnil. apply map_eq_nil in Hnil.
  assert (m ∈ filter (fun m' => markerKey m' = markerKey m) (markers words))
    as Hin by (apply list_elem_of_filter; auto).
  rewrite Hnil in Hin. by apply elem_of_nil in Hin.
Qed.

Example optional_word_rewrites_property :
  let bp := FromArgs ["cmd"; "{{a#hello}}"; "[a]"; "{{a}}"] in
  Properties (InputSchema bp) !! "a" = Some (mkProperty "string" "" None)
  /\ descriptionsOf "a" ["{{a#hello}}"; "[a]"; "{{a}}"] = ["hello"; ""].
Proof. split; reflexivity. Qed.

(** C8, as stated, fails: an optional-field word of the same name writes
    the property anew, so that the description of an earlier marker is
    lost, and a later marker without description does not bring it back. *)
Lemma description_cleared_by_optional_word :
  ~ (forall (args_ : list string) (n : string),
        n ∈ markerKeys (drop 1 args_) ->
        exists p,
          Properties (InputSchema (FromArgs args_)) !! n = Some p
          /\ pDescription p = lastNonEmpty (descriptionsOf n (drop 1 args_))).
Proof.
  intros H.
  destruct (H ["cmd"; "{{a#hello}}"; "[a]"; "{{a}}"] "a") as (p & Hp & Hd).
  - vm_compute. apply list_elem_of_here.
  - vm_compute in Hp. injection Hp as <-. vm_compute in Hd. discriminate Hd.
Qed.

(** C8, amended.  For a name that markers introduce and no optional-field
    word does, the schema has a string property whose description is the
    last non-empty description among the markers of that name, in scan
    order, and is empty when no marker supplies one.  At every marker, a
    marker without description leaves the property of its name as it is,
    and a marker with a description writes it. *)
Theorem marker_description (args_ : list string) (n : string) :
  (n ∈ markerKeys (drop 1 args_) ->
   n ∉ arrayKeys (drop 1 args_) ->
   n ∉ optionalKeys (drop 1 args_) ->
   Properties (InputSchema (FromArgs args_)) !! n
   = Some (mkProperty "string"
                      (lastNonEmpty (descriptionsOf n (drop 1 args_))) None))
  /\ (forall i st m p,
        properties st !! markerKey m = Some p ->
        markerDescription m = "" ->
        properties (parseMatch i st m) !! markerKey m = Some p)
  /\ (forall i st m,
        markerDescription m <> "" ->
        properties (parseMatch i st m) !! markerKey m
        = Some (mkProperty "string" (markerDescription m) None)).
Proof.
  split; [|split].
  - destruct args_ as [|arg0 words].
    { intros H. by apply elem_of_nil in H. }
    change (drop 1 (arg0 :: words)) with words. intros Hm Ha Ho.
    rewrite Properties_FromArgs.
    rewrite (parseLoop_properties n words 1 _ [] Ha Ho) by apply lookup_empty.
    simpl. apply descriptionsOf_nonempty in Hm.
    unfold propertyAfter. destruct (descriptionsOf n words); [congruence|].
    reflexivity.
  - intros i st m p Hp Hd.
    rewrite parseMatch_properties, decide_True, Hp, Hd by reflexivity.
    reflexivity.
  - intros i st m Hd.
    rewrite parseMatch_properties, decide_True by reflexivity.
    destruct (properties st !! markerKey m);
      destruct (markerDescription m); try reflexivity; congruence.
Qed.

Lemma marker_description_witness :
  Properties (InputSchema
    (FromArgs ["say"; "{{msg}}"; "{{ msg # first }}"; "{{msg#second}}"; "{{msg}}"]))
    !! "msg"
  = Some (mkProperty "string" "second" None).
Proof.
  destruct (marker_description
              ["say"; "{{msg}}"; "{{ msg # first }}"; "{{msg#second}}"; "{{msg}}"]
              "msg") as (H & _ & _).
  apply H.
  - vm_compute. apply list_elem_of_here.
  - vm_compute. intros H'. by apply elem_of_nil in H'.
  - vm_compute. intros H'. by apply elem_of_nil in H'.
Defined.

(** ** Substitution of markers *)

Lemma span_all (p : ascii -> bool) (s a b : string) :
  span p s = (a, b) -> span p a = (a, "").
Proof.
  revert a b. induction s as [|c s IH]; intros a b; simpl.
  - intros [= <- <-]. reflexivity.
  - destruct (p c) eqn:Ec.
    + destruct (span p s) as [a' b'] eqn:E. intros [= <- <-].
      simpl. rewrite Ec, (IH a' b' eq_refl). reflexivity.
    + intros [= <- <-]. reflexivity.
Qed.

Lemma span_stop (p : ascii -> bool) (a : string) (c : ascii) (r : string) :
  span p a = (a, "") -> p c = false ->
  span p (a +:+ String c r) = (a, String c r).
Proof.
  intros Ha Hc. induction a as [|x a IH].
  - simpl. rewrite Hc. reflexivity.
  - rewrite sapp_cons. simpl in *. destruct (p x); [|discriminate].
    destruct (span p a) as [a' b'] eqn:E. injection Ha as -> ->.
    rewrite (IH eq_refl). reflexivity.
Qed.

(** A match only depends on its own text: the text of a match, followed
    by anything, matches in the same way. *)
Lemma templateMatchAt_text (s : string) (m : submatch) (rest rest' : string) :
  templateMatchAt s = Some (m, rest) ->
  templateMatchAt (m0 m +:+ rest') = Some (m, rest').
Proof.
  unfold templateMatchAt.
  destruct s as [|a s]; [discriminate|].
  byte_is a "{"%char.
  destruct s as [|b s1]; [discriminate|].
  byte_is b "{"%char.
  destruct (span nameByte s1) as [nm s2] eqn:En.
  apply span_all in En.
  destruct nm as [|n0 nm]; [discriminate|]. simpl isEmpty. cbv iota.
  destruct s2 as [|c s2]; [discriminate|].
  destruct (Ascii.eqb_spec c "}") as [->|Hc].
  - destruct s2 as [|d s2]; [discriminate|].
    byte_is d "}"%char.
    intros [= <- <-]. cbn [m0].
    rewrite !sapp_assoc.
    change ("{{" +:+ ?x) with (String "{" (String "{" x)). cbv iota.
    change ("}}" +:+ rest') with (String "}" (String "}" rest')).
    rewrite (span_stop nameByte _ "}" _ En eq_refl). reflexivity.
  - byte_is c "#"%char.
    destruct (span descByte s2) as [ds s4] eqn:Ed.
    apply span_all in Ed.
    destruct ds as [|d0 ds]; [discriminate|]. simpl isEmpty. cbv iota.
    destruct s4 as [|e s4]; [discriminate|].
    byte_is e "}"%char.
    destruct s4 as [|f s4]; [discriminate|].
    byte_is f "}"%char.
    intros [= <- <-]. cbn [m0].
    rewrite !sapp_assoc.
    change ("{{" +:+ ?x) with (String "{" (String "{" x)). cbv iota.
    change ("#" +:+ ?x) with (String "#" x).
    change ("}}" +:+ rest') with (String "}" (String "}" rest')).
    rewrite (span_stop nameByte _ "#" _ En eq_refl). cbv iota. simpl isEmpty.
    cbv iota.
    rewrite (span_stop descByte _ "}" _ Ed eq_refl). reflexivity.
Qed.

Lemma HasPrefix_app (old r : string) : HasPrefix (old +:+ r) old = true.
Proof.
  induction old as [|a old IH]; [reflexivity|].
  rewrite sapp_cons. simpl. rewrite Ascii.eqb_refl, IH. reflexivity.
Qed.

Lemma HasPrefix_true (s old : string) :
  HasPrefix s old = true -> exists r, s = old +:+ r.
Proof.
  revert s. induction old as [|a old IH]; intros s; simpl.
  - intros _. exists s. reflexivity.
  - destruct s as [|b s]; [discriminate|].
    destruct (Ascii.eqb_spec a b) as [->|]; [|discriminate]. simpl.
    intros H. apply IH in H as [r ->]. exists r. reflexivity.
Qed.

Lemma replaceFrom_skip (a r old new : string) :
  replaceFrom (String.length a) (a +:+ r) old new = replaceFrom 0 r old new.
Proof.
  induction a as [|c a IH]; [reflexivity|].
  rewrite sapp_cons. simpl. exact IH.
Qed.

(** [ReplaceAll] at an occurrence of [old]. *)
Lemma ReplaceAll_here (old r new : string) :
  old <> "" ->
  ReplaceAll (old +:+ r) old new = new +:+ ReplaceAll r old new.
Proof.
  intros Hne. destruct old as [|c old]; [congruence|].
  unfold ReplaceAll. rewrite sapp_cons. cbn [replaceFrom].
  rewrite <- sapp_cons, HasPrefix_app.
  replace (String.length (String c old) - 1) with (String.length old)
    by (simpl; lia).
  rewrite replaceFrom_skip. reflexivity.
Qed.

(** [ReplaceAll] where [old] does not occur. *)
Lemma ReplaceAll_next (c : ascii) (t old new : string) :
  old <> "" ->
  HasPrefix (String c t) old = false ->
  ReplaceAll (String c t) old new = String c (ReplaceAll t old new).
Proof.
  intros Hne H. destruct old as [|a old]; [congruence|].
  unfold ReplaceAll. cbn [replaceFrom]. rewrite H. reflexivity.
Qed.

Lemma ReplaceAll_nil (old new : string) : ReplaceAll "" old new = "".
Proof. destruct old; reflexivity. Qed.

Lemma isMatch_nonempty (m : submatch) : isMatch m -> m0 m <> "".
Proof.
  intros (s & rest & H). apply templateMatchAt_Some in H as (_ & -> & _).
  discriminate.
Qed.

Lemma templatePieces_isMatch (s : string) (m : submatch) :
  Hit m ∈ templatePieces s -> isMatch m.
Proof.
  induction s as [|c t E IH|s m' rest E IH] using templatePieces_ind.
  - rewrite templatePieces_nil. intros H. by apply elem_of_nil in H.
  - rewrite (templatePieces_lit _ _ E). intros H.
    apply elem_of_cons in H as [H|H]; [discriminate|]. by apply IH.
  - rewrite (templatePieces_hit _ _ _ E). intros H.
    apply elem_of_cons in H as [[= ->]|H]; [|by apply IH].
    by exists s, rest.
Qed.

(** Where no match starts, the text of no match starts either. *)
Lemma HasPrefix_no_match (s : string) (m : submatch) :
  isMatch m -> templateMatchAt s = None -> HasPrefix s (m0 m) = false.
Proof.
  intros (s0 & rest0 & Hm) Hs.
  destruct (HasPrefix s (m0 m)) eqn:E; [|reflexivity].
  apply HasPrefix_true in E as [r ->].
  rewrite (templateMatchAt_text _ _ _ r Hm) in Hs. discriminate.
Qed.

(** In a word without marker the text of a match does not occur. *)
Lemma ReplaceAll_no_hits (s : string) (m : submatch) (new : string) :
  isMatch m -> hits (templatePieces s) = [] -> ReplaceAll s (m0 m) new = s.
Proof.
  intros Hm. pose proof (isMatch_nonempty m Hm) as Hne.
  induction s as [|c t E IH|s m' rest E IH] using templatePieces_ind.
  - intros _. apply ReplaceAll_nil.
  - rewrite (templatePieces_lit _ _ E). simpl. intros H.
    rewrite ReplaceAll_next, (IH H); auto using HasPrefix_no_match.
  - rewrite (templatePieces_hit _ _ _ E). discriminate.
Qed.

(** In a word with one marker its text occurs once, where the marker is. *)
Lemma ReplaceAll_one_hit (s : string) (m : submatch) (new : string)
    (f : piece -> string) :
  (forall c, f (Lit c) = String c "") -> f (Hit m) = new ->
  hits (templatePieces s) = [m] ->
  ReplaceAll s (m0 m) new = joinPieces f (templatePieces s).
Proof.
  intros Hlit Hhit.
  induction s as [|c t E IH|s m' rest E IH] using templatePieces_ind.
  - discriminate.
  - rewrite (templatePieces_lit _ _ E). simpl. intros H.
    assert (isMatch m) as Hm.
    { apply (templatePieces_isMatch t), elem_of_hits.
      rewrite H. apply list_elem_of_here. }
    rewrite ReplaceAll_next, (IH H), Hlit;
      auto using HasPrefix_no_match, isMatch_nonempty.
  - rewrite (templatePieces_hit _ _ _ E). simpl. intros [= -> Hrest].
    assert (isMatch m) as Hm by (by exists s, rest).
    apply templateMatchAt_Some in E as (-> & _).
    rewrite ReplaceAll_here by (by apply isMatch_nonempty).
    rewrite ReplaceAll_no_hits, Hhit by assumption. f_equal.
    rewrite <- (templatePieces_source rest) at 1.
    apply joinPieces_no_hits; [|exact Hrest].
    intros c. by rewrite Hlit.
Qed.

Lemma fold_substituteMatch_agree (params params' : gmap string Value)
    (ms : list submatch) :
  (forall m, m ∈ ms -> params' !! markerKey m = params !! markerKey m) ->
  forall acc,
    fold_left (substituteMatch params') ms acc
    = fold_left (substituteMatch params) ms acc.
Proof.
  induction ms as [|m ms IH]; intros H acc; [reflexivity|]. simpl.
  rewrite IH by (intros; apply H; by apply list_elem_of_further).
  f_equal. unfold substituteMatch. fold (markerKey m).
  rewrite (H m) by apply list_elem_of_here. reflexivity.
Qed.

(** The entry of a word that is not an optional-field word. *)
Lemma buildArg_markers params (w : string) :
  optionalFind w = None ->
  buildArg params 1 [] w
  = [fold_left (substituteMatch params) (templateFindAll w) w].
Proof.
  intros H. unfold buildArg. rewrite skipArgs_never, H.
  destruct (templateFindAll w); reflexivity.
Qed.

(** *** Words in which the byte [{] only opens markers *)

Lemma hasByte_app (c : ascii) (a b : string) :
  hasByte c (a +:+ b) = hasByte c a || hasByte c b.
Proof.
  induction a as [|x a IH]; [reflexivity|].
  rewrite sapp_cons. cbn [hasByte]. rewrite IH, orb_assoc. reflexivity.
Qed.

(** The text of a match tells the match. *)
Lemma isMatch_inj (m m' : submatch) :
  isMatch m -> isMatch m' -> m0 m = m0 m' -> m = m'.
Proof.
  intros (s & rest & H) (s' & rest' & H') Heq.
  pose proof (templateMatchAt_text _ _ _ "" H) as E.
  pose proof (templateMatchAt_text _ _ _ "" H') as E'.
  rewrite Heq, E' in E. congruence.
Qed.

Lemma isMatch_text (m : submatch) :
  isMatch m -> exists tail, m0 m = String "{" (String "{" tail).
Proof.
  intros (s & rest & H). apply templateMatchAt_Some in H as (_ & -> & _).
  eexists. reflexivity.
Qed.

Lemma isMatch_text_without_brace (m : submatch) :
  isMatch m -> pieceWithoutBrace (Hit m) = true ->
  exists c tail,
    m0 m = String "{" (String "{" (String c tail))
    /\ hasByte "{" (String c tail) = false.
Proof.
  intros (s & rest & H) Hb.
  apply templateMatchAt_Some in H as (_ & Hm & Hne).
  simpl in Hb. apply andb_true_iff in Hb as [H1 H2].
  apply negb_true_iff in H1, H2.
  destruct (m1 m) as [|c n] eqn:En; [congruence|].
  exists c, (n +:+ (if isEmpty (m2 m) then "" else "#" +:+ m2 m) +:+ "}}").
  split.
  - rewrite Hm. unfold markerText. rewrite En. reflexivity.
  - change (String c (n +:+ ?x)) with (String c n +:+ x).
    rewrite hasByte_app, H1, hasByte_app.
    destruct (m2 m) as [|a d]; [reflexivity|]. cbn [isEmpty].
    change ("#" +:+ String a d) with (String "#" (String a d)).
    cbn [hasByte] in *. rewrite H2. reflexivity.
Qed.

(** Bytes other than [{] are passed over when the text of a marker is
    looked for. *)
Lemma ReplaceAll_skip (a r old new : string) :
  hasByte "{" a = false ->
  ReplaceAll (a +:+ r) (String "{" old) new
  = a +:+ ReplaceAll r (String "{" old) new.
Proof.
  induction a as [|c a IH]; [reflexivity|]. cbn [hasByte]. intros H.
  apply orb_false_elim in H as [Hc Ha].
  rewrite !sapp_cons, ReplaceAll_next, (IH Ha); [reflexivity|discriminate|].
  cbn [HasPrefix]. rewrite Ascii.eqb_sym, Hc. reflexivity.
Qed.

(** The text of another marker is passed over as a whole. *)
Lemma ReplaceAll_other_marker (m mk : submatch) (r new : string) :
  isMatch m -> isMatch mk -> pieceWithoutBrace (Hit m) = true ->
  m0 m <> m0 mk ->
  ReplaceAll (m0 m +:+ r) (m0 mk) new = m0 m +:+ ReplaceAll r (m0 mk) new.
Proof.
  intros Hm Hmk Hb Hne.
  assert (HasPrefix (m0 m +:+ r) (m0 mk) = false) as Hp.
  { destruct (HasPrefix (m0 m +:+ r) (m0 mk)) eqn:E; [|reflexivity].
    apply HasPrefix_true in E as [r' E].
    destruct Hm as (s & rest & Hm). destruct Hmk as (sk & restk & Hmk).
    pose proof (templateMatchAt_text _ _ _ r Hm) as E1.
    pose proof (templateMatchAt_text _ _ _ r' Hmk) as E2.
    rewrite E, E2 in E1. congruence. }
  destruct (isMatch_text_without_brace m Hm Hb) as (c & tail & Ht & Hc).
  destruct (isMatch_text mk Hmk) as (tk & Hk).
  rewrite Ht in *. rewrite Hk in *. rewrite !sapp_cons in *.
  rewrite ReplaceAll_next; [|discriminate|exact Hp]. f_equal.
  rewrite ReplaceAll_next; [|discriminate|].
  - f_equal. rewrite <- sapp_cons. by apply ReplaceAll_skip.
  - cbn [HasPrefix hasByte] in *. apply orb_false_elim in Hc as [Hc _].
    rewrite (Ascii.eqb_sym "{" c), Hc, andb_false_r. reflexivity.
Qed.

Section Staged.

Context (params : gmap string Value).

Lemma stagePiece_nil (p : piece) : stagePiece params [] p = sourcePiece p.
Proof.
  destruct p as [c|m]; [reflexivity|]. cbn [stagePiece sourcePiece].
  destruct (decide (m0 m ∈ [])) as [H|]; [|reflexivity].
  by apply elem_of_nil in H.
Qed.

(** One bound marker: the replace-all of its text changes the markers
    with that text and nothing else. *)
Lemma ReplaceAll_stage (mk : submatch) (str : string) (done : list string)
    (ps : list piece) :
  isMatch mk ->
  params !! markerKey mk = Some (VString str) ->
  hasByte "{" str = false ->
  (forall m, Hit m ∈ ps -> isMatch m) ->
  forallb pieceWithoutBrace ps = true ->
  forallb (valueWithoutBrace params) (hits ps) = true ->
  ReplaceAll (joinPieces (stagePiece params done) ps) (m0 mk) str
  = joinPieces (stagePiece params (m0 mk :: done)) ps.
Proof.
  intros Hmk Hb Hstr.
  destruct (isMatch_text mk Hmk) as (tk & Hk).
  assert (forall c t, Ascii.eqb c "{" = false ->
            ReplaceAll (String c t) (m0 mk) str
            = String c (ReplaceAll t (m0 mk) str)) as Hnext.
  { intros c t Hc. apply ReplaceAll_next; [by apply isMatch_nonempty|].
    rewrite Hk. cbn [HasPrefix]. rewrite Ascii.eqb_sym, Hc. reflexivity. }
  assert (forall a r, hasByte "{" a = false ->
            ReplaceAll (a +:+ r) (m0 mk) str
            = a +:+ ReplaceAll r (m0 mk) str) as Hskip.
  { intros a r Ha. rewrite Hk. by apply ReplaceAll_skip. }
  induction ps as [|[c|m] ps IH]; intros Hms Hbr Hval.
  - apply ReplaceAll_nil.
  - cbn [forallb pieceWithoutBrace] in Hbr.
    apply andb_true_iff in Hbr as [Hc Hbr]. apply negb_true_iff in Hc.
    cbn [joinPieces stagePiece].
    change (String c "" +:+ ?x) with (String c x).
    rewrite (Hnext _ _ Hc), IH; auto.
    intros m' Hin. apply Hms. by apply list_elem_of_further.
  - cbn [forallb hits] in Hbr, Hval.
    apply andb_true_iff in Hbr as [Hm1 Hbr].
    apply andb_true_iff in Hval as [Hv Hval].
    assert (isMatch m) as Hm by (apply Hms, list_elem_of_here).
    assert (ReplaceAll (joinPieces (stagePiece params done) ps) (m0 mk) str
            = joinPieces (stagePiece params (m0 mk :: done)) ps) as IH'.
    { apply IH; auto. intros m' Hin. apply Hms. by apply list_elem_of_further. }
    cbn [joinPieces stagePiece].
    destruct (decide (m0 m = m0 mk)) as [Heq|Hne].
    + pose proof (isMatch_inj m mk Hm Hmk Heq) as ->.
      rewrite (decide_True (P := m0 mk ∈ m0 mk :: done))
        by apply list_elem_of_here.
      cbn [substitutePiece]. rewrite Hb.
      destruct (decide (m0 mk ∈ done)).
      * rewrite (Hskip _ _ Hstr), IH'. reflexivity.
      * rewrite ReplaceAll_here, IH' by (by apply isMatch_nonempty).
        reflexivity.
    + assert (forall x : string,
                (if decide (m0 m ∈ m0 mk :: done) then x else m0 m)
                = if decide (m0 m ∈ done) then x else m0 m) as ->.
      { intros x. destruct (decide (m0 m ∈ done)) as [Hd|Hd].
        - rewrite decide_True; [reflexivity|]. by apply list_elem_of_further.
        - rewrite decide_False; [reflexivity|].
          intros [H|H]%elem_of_cons; [congruence | by apply Hd]. }
      destruct (decide (m0 m ∈ done)).
      * cbn [substitutePiece]. unfold valueWithoutBrace in Hv.
        destruct (params !! markerKey m) as [[v| | |]|];
          try (rewrite ReplaceAll_other_marker, IH' by assumption;
               reflexivity).
        apply negb_true_iff in Hv.
        rewrite (Hskip _ _ Hv), IH'. reflexivity.
      * rewrite ReplaceAll_other_marker, IH' by assumption. reflexivity.
Qed.

(** One marker without string leaves the word as it is. *)
Lemma stagePiece_unbound (mk : submatch) (done : list string)
    (ps : list piece) :
  isMatch mk ->
  (forall str, params !! markerKey mk <> Some (VString str)) ->
  (forall m, Hit m ∈ ps -> isMatch m) ->
  joinPieces (stagePiece params done) ps
  = joinPieces (stagePiece params (m0 mk :: done)) ps.
Proof.
  intros Hmk Hb Hms. apply joinPieces_ext. intros [c|m] Hp; [reflexivity|].
  simpl. destruct (decide (m0 m = m0 mk)) as [Heq|Hne].
  - pose proof (isMatch_inj m mk (Hms m Hp) Hmk Heq) as ->.
    destruct (params !! markerKey mk) as [[v| | |]|];
      try (by repeat case_decide). by destruct (Hb v).
  - destruct (decide (m0 m ∈ done)) as [Hd|Hd].
    + rewrite decide_True; [reflexivity|]. by apply list_elem_of_further.
    + rewrite decide_False; [reflexivity|].
      intros [H|H]%elem_of_cons; [congruence | by apply Hd].
Qed.

(** The markers one after the other. *)
Lemma fold_substituteMatch_stage (ps : list piece) (ms : list submatch) :
  (forall m, Hit m ∈ ps -> isMatch m) ->
  forallb pieceWithoutBrace ps = true ->
  forallb (valueWithoutBrace params) (hits ps) = true ->
  (forall m, m ∈ ms -> isMatch m) ->
  forallb (valueWithoutBrace params) ms = true ->
  forall done,
    exists done',
      (forall x, x ∈ done' <-> x ∈ done \/ x ∈ map m0 ms)
      /\ fold_left (substituteMatch params) ms
                   (joinPieces (stagePiece params done) ps)
         = joinPieces (stagePiece params done') ps.
Proof.
  intros Hps Hbr Hval. induction ms as [|mk ms IH]; intros Hms Hvs done.
  - exists done. split; [|reflexivity]. intros x. simpl.
    rewrite elem_of_nil. tauto.
  - simpl in Hvs. apply andb_true_iff in Hvs as [Hv Hvs].
    assert (isMatch mk) as Hmk by (apply Hms, list_elem_of_here).
    destruct (IH (fun m H => Hms m (list_elem_of_further _ _ _ H)) Hvs
                 (m0 mk :: done)) as (done' & Hd & Hf).
    exists done'. split.
    + intros x. rewrite Hd. simpl. rewrite !elem_of_cons. tauto.
    + simpl. rewrite <- Hf. f_equal.
      unfold substituteMatch. fold (markerKey mk).
      unfold valueWithoutBrace in Hv.
      destruct (params !! markerKey mk) as [[v| | |]|] eqn:Eb;
        try (apply stagePiece_unbound; [exact Hmk| |exact Hps];
             rewrite Eb; discriminate).
      apply negb_true_iff in Hv. by apply ReplaceAll_stage.
Qed.

(** A word in which [{] only opens markers, with values without [{], is
    rendered span by span. *)
Lemma fold_substituteMatch_opaque (w : string) :
  braceOnlyOpensMarkers w = true ->
  valuesWithoutBrace params w = true ->
  fold_left (substituteMatch params) (templateFindAll w) w
  = renderOpaque params w.
Proof.
  unfold braceOnlyOpensMarkers, valuesWithoutBrace, templateFindAll.
  intros Hbr Hval.
  assert (forall m, Hit m ∈ templatePieces w -> isMatch m) as Hps
    by apply templatePieces_isMatch.
  assert (forall m, m ∈ hits (templatePieces w) -> isMatch m) as Hms
    by (intros m Hm; by apply Hps, elem_of_hits).
  destruct (fold_substituteMatch_stage (templatePieces w)
              (hits (templatePieces w)) Hps Hbr Hval Hms Hval [])
    as (done' & Hd & Hf).
  rewrite (joinPieces_ext _ sourcePiece) in Hf
    by (intros; apply stagePiece_nil).
  rewrite templatePieces_source in Hf. rewrite Hf.
  apply joinPieces_ext. intros [c|m] Hp; [reflexivity|]. simpl.
  rewrite decide_True; [reflexivity|]. apply Hd. right.
  apply list_elem_of_fmap_2. by apply elem_of_hits.
Qed.

End Staged.

Lemma templatePieces_of_match_text (m : submatch) :
  isMatch m -> templatePieces (m0 m) = [Hit m].
Proof.
  intros (s & rest & H).
  pose proof (templateMatchAt_text _ _ _ "" H) as Hm.
  rewrite sapp_nil_r in Hm. by rewrite (templatePieces_hit _ _ _ Hm).
Qed.

(** Two markers side by side, the first bound to the text of the second:
    both places take the value of the second. *)
Lemma fold_substituteMatch_nested (params : gmap string Value)
    (ma mb : submatch) (str : string) :
  isMatch ma -> isMatch mb -> m0 ma <> m0 mb ->
  pieceWithoutBrace (Hit mb) = true ->
  params !! markerKey ma = Some (VString (m0 mb)) ->
  params !! markerKey mb = Some (VString str) ->
  optionalFind (m0 ma +:+ m0 mb) = None
  /\ templateFindAll (m0 ma +:+ m0 mb) = [ma; mb]
  /\ fold_left (substituteMatch params) [ma; mb] (m0 ma +:+ m0 mb)
     = str +:+ str.
Proof.
  intros Ha Hb Hne Hbr Ea Eb.
  split; [|split].
  - destruct (isMatch_text ma Ha) as (t & ->). reflexivity.
  - unfold templateFindAll.
    destruct Ha as (s & rest & Ha).
    rewrite (templatePieces_hit _ _ _ (templateMatchAt_text _ _ _ (m0 mb) Ha)).
    rewrite (templatePieces_of_match_text mb Hb). reflexivity.
  - assert (ReplaceAll (m0 mb) (m0 ma) (m0 mb) = m0 mb) as H1.
    { pose proof (ReplaceAll_other_marker mb ma "" (m0 mb) Hb Ha Hbr
                    (fun H => Hne (eq_sym H))) as H.
      by rewrite ReplaceAll_nil, !sapp_nil_r in H. }
    assert (ReplaceAll (m0 mb) (m0 mb) str = str) as H2.
    { pose proof (ReplaceAll_here (m0 mb) "" str (isMatch_nonempty mb Hb)) as H.
      by rewrite ReplaceAll_nil, !sapp_nil_r in H. }
    cbn [fold_left]. unfold substituteMatch.
    fold (markerKey ma) (markerKey mb). rewrite Ea, Eb.
    rewrite (ReplaceAll_here (m0 ma)) by (by apply isMatch_nonempty).
    rewrite H1, ReplaceAll_here, H2 by (by apply isMatch_nonempty).
    reflexivity.
Qed.

Example later_marker_replaces_inserted_text :
  let params : gmap string Value :=
    <["a" := VString "{{b}}"]> {["b" := VString "X"]} in
  BuildCommandArgs (FromArgs ["echo"; "{{a}}{{b}}"]) params = ["echo"; "XX"]
  /\ renderOpaque params "{{a}}{{b}}" = "{{b}}X".
Proof. split; reflexivity. Qed.

(** The text of a marker may end with the text of another: replacing the
    second one everywhere changes the first one too. *)
Example marker_text_inside_marker_text :
  templateFindAll "{{a#use {{b}}:{{b}}"
  = [Submatch "{{a#use {{b}}" "a" "use {{b"; Submatch "{{b}}" "b" ""]
  /\ BuildCommandArgs (FromArgs ["echo"; "{{a#use {{b}}:{{b}}"])
                      {["b" := VString "1"]}
     = ["echo"; "{{a#use 1:1"].
Proof. split; reflexivity. Qed.




(** ** No index out of range *)

Lemma parseLoopChecked_Some (args_ : list string) (steps : nat) :
  forall (i : nat) (st : parseState),
    length args_ - i <= steps ->
    parseLoopChecked steps i args_ st
    = Some (parseLoop i (drop i args_) st).
Proof.
  induction steps as [|steps IH]; intros i st Hs.
  - cbn [parseLoopChecked]. destruct (i <? length args_) eqn:E.
    + apply Nat.ltb_lt in E. lia.
    + apply Nat.ltb_ge in E. by rewrite drop_ge.
  - cbn [parseLoopChecked]. destruct (i <? length args_) eqn:E.
    + apply Nat.ltb_lt in E. unfold index.
      destruct (lookup_lt_is_Some_2 args_ i E) as [arg Harg].
      rewrite Harg. simpl. rewrite IH by lia.
      by rewrite (drop_S _ _ _ Harg).
    + apply Nat.ltb_ge in E. by rewrite drop_ge.
Qed.

Lemma buildLoopChecked_Some params (args_ : list string) (steps : nat) :
  forall (i : nat) (result : list string),
    length args_ - i <= steps ->
    buildLoopChecked params steps i args_ result
    = Some (buildLoop params i (drop i args_) result).
Proof.
  induction steps as [|steps IH]; intros i result Hs.
  - cbn [buildLoopChecked]. destruct (i <? length args_) eqn:E.
    + apply Nat.ltb_lt in E. lia.
    + apply Nat.ltb_ge in E. by rewrite drop_ge.
  - cbn [buildLoopChecked]. destruct (i <? length args_) eqn:E.
    + apply Nat.ltb_lt in E. unfold index.
      destruct (lookup_lt_is_Some_2 args_ i E) as [arg Harg].
      rewrite Harg. simpl. rewrite IH by lia.
      by rewrite (drop_S _ _ _ Harg).
    + apply Nat.ltb_ge in E. by rewrite drop_ge.
Qed.

Lemma FromArgsChecked_Some (args_ : list string) :
  FromArgsChecked args_ = Some (FromArgs args_).
Proof.
  unfold FromArgsChecked. destruct args_ as [|arg0 words]; [reflexivity|].
  change (length (arg0 :: words) =? 0) with false.
  change (index (arg0 :: words) 0) with (Some arg0).
  cbv iota. cbn [mbind option_bind].
  rewrite parseLoopChecked_Some by lia. reflexivity.
Qed.

Lemma BuildCommandArgsChecked_Some (bp : Blueprint) params :
  BuildCommandArgsChecked bp params = Some (BuildCommandArgs bp params).
Proof.
  unfold BuildCommandArgsChecked.
  rewrite buildLoopChecked_Some by lia. reflexivity.
Qed.

(** ** Words without placeholder and parameters without value *)

Lemma parseArg_plain (i : nat) (st : parseState) (w : string) :
  plainWord w ->
  parseArg i st w
  = mkParseState (descriptionParts st ++ [w]) (properties st) (required st)
                 (bpTemplates st).
Proof.
  intros [Hopt Hall]. unfold parseArg. rewrite Hopt, Hall. reflexivity.
Qed.

Lemma substituteMatch_notString params (acc : string) (m : submatch) :
  notString (params !! markerKey m) -> substituteMatch params acc m = acc.
Proof.
  intros H. unfold substituteMatch. fold (markerKey m).
  destruct (params !! markerKey m) as [[str| | |]|]; try reflexivity.
  by destruct (H str).
Qed.

Lemma fold_substituteMatch_notString params (ms : list submatch) :
  (forall m, m ∈ ms -> notString (params !! markerKey m)) ->
  forall acc, fold_left (substituteMatch params) ms acc = acc.
Proof.
  induction ms as [|m ms IH]; intros H acc; [reflexivity|]. simpl.
  rewrite substituteMatch_notString by (apply H, list_elem_of_here).
  apply IH. intros; apply H; by apply list_elem_of_further.
Qed.

Lemma buildArg_array_notSequence params (w : string) (m : submatch) :
  optionalFind w = Some m -> m2 m = "..." ->
  notSequence (params !! optionalKey m) ->
  buildArg params 1 [] w = [].
Proof.
  intros Hopt Hdots H. unfold buildArg.
  rewrite skipArgs_never, Hopt, Hdots. fold (optionalKey m). simpl.
  destruct (params !! optionalKey m) as [[str|l|l|]|]; try reflexivity.
  - destruct (H _ eq_refl) as [H' _]. by destruct (H' l).
  - destruct (H _ eq_refl) as [_ H']. by destruct (H' l).
Qed.

Lemma buildArg_optional_notString params (w : string) (m : submatch) :
  optionalFind w = Some m -> m2 m <> "..." ->
  notString (params !! optionalKey m) ->
  buildArg params 1 [] w = [].
Proof.
  intros Hopt Hdots H. unfold buildArg. rewrite skipArgs_never, Hopt.
  apply String.eqb_neq in Hdots. rewrite Hdots. fold (optionalKey m).
  destruct (params !! optionalKey m) as [[str|l|l|]|]; try reflexivity.
  by destruct (H str).
Qed.

Lemma contributes_eq params (arg0 : string) (pre post : list string)
    (w : string) (entries : list string) :
  buildArg params 1 [] w = entries -> contributes params arg0 pre w post entries.
Proof. intros <-. apply contributes_buildArg. Qed.



(** * Further properties *)

(** ** Names without hyphen *)

Lemma ReplaceAll_hyphen_cons (c : ascii) (t : string) :
  ReplaceAll (String c t) "-" "_"
  = String (if Ascii.eqb c "-" then "_"%char else c) (ReplaceAll t "-" "_").
Proof.
  unfold ReplaceAll. cbn [replaceFrom HasPrefix].
  rewrite Ascii.eqb_sym. destruct (Ascii.eqb c "-"); reflexivity.
Qed.

Lemma ReplaceAll_hyphen_nil : ReplaceAll "" "-" "_" = "".
Proof. reflexivity. Qed.

Lemma ReplaceAll_hyphen_hasByte (s : string) :
  hasByte "-" (ReplaceAll s "-" "_") = false.
Proof.
  induction s as [|c s IH]; [reflexivity|].
  rewrite ReplaceAll_hyphen_cons. cbn [hasByte]. rewrite IH, orb_false_r.
  destruct (Ascii.eqb c "-") eqn:E; [reflexivity | exact E].
Qed.

Lemma ReplaceAll_hyphen_length (s : string) :
  String.length (ReplaceAll s "-" "_") = String.length s.
Proof.
  induction s as [|c s IH]; [reflexivity|].
  rewrite ReplaceAll_hyphen_cons. cbn [String.length]. rewrite IH.
  reflexivity.
Qed.

Lemma ReplaceAll_hyphen_id (s : string) :
  hasByte "-" s = false -> ReplaceAll s "-" "_" = s.
Proof.
  induction s as [|c s IH]; [reflexivity|]. cbn [hasByte]. intros H.
  apply orb_false_elim in H as [Hc Hs].
  rewrite ReplaceAll_hyphen_cons, Hc, (IH Hs). reflexivity.
Qed.

Lemma ReplaceAll_hyphen_mapBytes (s : string) :
  ReplaceAll s "-" "_" = mapBytes hyphenToUnderscore s.
Proof.
  induction s as [|c s IH]; [reflexivity|].
  rewrite ReplaceAll_hyphen_cons, IH. reflexivity.
Qed.

(** X1.  The tool name is the base command byte by byte, with every
    hyphen turned into an underscore and every other byte kept: it has no
    hyphen and the length of the base command, and it is the base command
    when that has no hyphen. *)
Theorem ToolName_normalized (args_ : list string) :
  ToolName (FromArgs args_)
  = mapBytes hyphenToUnderscore (BaseCommand (FromArgs args_))
  /\ hasByte "-" (ToolName (FromArgs args_)) = false
  /\ String.length (ToolName (FromArgs args_))
     = String.length (BaseCommand (FromArgs args_))
  /\ (hasByte "-" (BaseCommand (FromArgs args_)) = false ->
      ToolName (FromArgs args_) = BaseCommand (FromArgs args_)).
Proof.
  destruct args_ as [|arg0 words]; [repeat split; reflexivity|].
  unfold FromArgs, blueprintOf. cbn [ToolName BaseCommand].
  split; [apply ReplaceAll_hyphen_mapBytes|].
  split; [apply ReplaceAll_hyphen_hasByte|].
  split; [apply ReplaceAll_hyphen_length | apply ReplaceAll_hyphen_id].
Qed.

Lemma ToolName_normalized_witness :
  ToolName (FromArgs ["say"; "-v"; "{{speech}}"]) = "say"
  /\ ToolName (FromArgs ["docker-compose"; "up"; "[args...]"])
     = "docker_compose".
Proof.
  split.
  - destruct (ToolName_normalized ["say"; "-v"; "{{speech}}"])
      as (_ & _ & _ & H).
    apply H. reflexivity.
  - destruct (ToolName_normalized ["docker-compose"; "up"; "[args...]"])
      as (H & _).
    rewrite H. reflexivity.
Defined.

(** ** The properties of the schema and the names of the vector *)

Lemma parseMatch_properties_is_Some (i : nat) (st : parseState)
    (m : submatch) (n : string) :
  is_Some (properties (parseMatch i st m) !! n)
  <-> is_Some (properties st !! n) \/ n = markerKey m.
Proof.
  rewrite parseMatch_properties.
  destruct (decide (markerKey m = n)) as [<-|Hne].
  - destruct (properties st !! markerKey m) as [p|].
    + destruct (isEmpty (markerDescription m)); split; eauto.
    + split; eauto.
  - split; [auto|]. intros [H|H]; [exact H|congruence].
Qed.

Lemma fold_parseMatch_properties_is_Some (i : nat) (ms : list submatch)
    (n : string) :
  forall st,
    is_Some (properties (fold_left (parseMatch i) ms st) !! n)
    <-> is_Some (properties st !! n) \/ n ∈ map markerKey ms.
Proof.
  induction ms as [|m ms IH]; intros st; simpl.
  - rewrite elem_of_nil. tauto.
  - rewrite IH, parseMatch_properties_is_Some, elem_of_cons. tauto.
Qed.

Lemma parseArg_properties_is_Some (i : nat) (st : parseState) (w : string)
    (n : string) :
  is_Some (properties (parseArg i st w) !! n)
  <-> is_Some (properties st !! n)
      \/ n ∈ arrayKeysOf w \/ n ∈ optionalKeysOf w
      \/ n ∈ map markerKey (markersOf w).
Proof.
  unfold parseArg, arrayKeysOf, optionalKeysOf, markersOf.
  destruct (optionalFind w) as [m|].
  - fold (optionalKey m).
    destruct (String.eqb (m2 m) "..."); cbn [properties];
      rewrite lookup_insert; simpl; rewrite ?elem_of_nil,
        ?list_elem_of_singleton;
      (destruct (decide (optionalKey m = n)) as [<-|Hne];
       [split; eauto | split; [tauto|]; intros [H|[H|[H|H]]];
                       try done; congruence]).
  - cbn [properties]. rewrite !elem_of_nil.
    destruct (0 <? length (templateFindAll w)) eqn:E.
    + rewrite fold_parseMatch_properties_is_Some. tauto.
    + apply Nat.ltb_ge in E.
      destruct (templateFindAll w); [|simpl in E; lia].
      simpl. rewrite elem_of_nil. tauto.
Qed.

Lemma parseLoop_properties_is_Some (words : list string) (n : string) :
  forall (i : nat) (st : parseState),
    is_Some (properties (parseLoop i words st) !! n)
    <-> is_Some (properties st !! n)
        \/ n ∈ arrayKeys words \/ n ∈ optionalKeys words
        \/ n ∈ markerKeys words.
Proof.
  unfold arrayKeys, optionalKeys, markerKeys, markers.
  induction words as [|w words IH]; intros i st; simpl.
  - rewrite !elem_of_nil. tauto.
  - rewrite IH, parseArg_properties_is_Some, map_app, !elem_of_app. tauto.
Qed.

Lemma Properties_is_Some_iff (args_ : list string) (n : string) :
  is_Some (Properties (InputSchema (FromArgs args_)) !! n)
  <-> n ∈ arrayKeys (drop 1 args_) \/ n ∈ optionalKeys (drop 1 args_)
      \/ n ∈ markerKeys (drop 1 args_).
Proof.
  destruct args_ as [|arg0 words].
  - simpl. rewrite lookup_empty, !elem_of_nil.
    split; [intros [? ?]; discriminate | tauto].
  - change (drop 1 (arg0 :: words)) with words.
    rewrite Properties_FromArgs, parseLoop_properties_is_Some.
    cbn [properties]. rewrite lookup_empty.
    split; [intros [[? ?]|H]; [discriminate|exact H] | auto].
Qed.

(** X2.  The schema has a property for a name exactly when an
    optional-array word, a plain optional word or a marker of the words
    behind the base command has that name. *)
Theorem properties_domain (args_ : list string) (n : string) :
  is_Some (Properties (InputSchema (FromArgs args_)) !! n)
  <-> n ∈ arrayKeys (drop 1 args_) \/ n ∈ optionalKeys (drop 1 args_)
      \/ n ∈ markerKeys (drop 1 args_).
Proof. apply Properties_is_Some_iff. Qed.

(** X3.  Every name in the required list of the schema has a property. *)
Theorem required_have_properties (args_ : list string) (n : string) :
  inRequired n (InputSchema (FromArgs args_)) ->
  is_Some (Properties (InputSchema (FromArgs args_)) !! n).
Proof. rewrite inRequired_iff, Properties_is_Some_iff. tauto. Qed.

Lemma required_have_properties_witness :
  is_Some (Properties (InputSchema (FromArgs ["run"; "{{file}}"; "[rest...]"]))
             !! "rest").
Proof.
  apply (required_have_properties ["run"; "{{file}}"; "[rest...]"] "rest").
  vm_compute. apply list_elem_of_further, list_elem_of_here.
Defined.

Lemma elem_of_concat_map {A B : Type} (f : A -> list B) (l : list A) (y : B) :
  y ∈ concat (map f l) <-> exists x, x ∈ l /\ y ∈ f x.
Proof.
  induction l as [|a l IH]; simpl.
  - rewrite elem_of_nil. split; [tauto|]. intros (x & Hx & _).
    by apply elem_of_nil in Hx.
  - rewrite elem_of_app, IH. split.
    + intros [H|(x & Hx & H)].
      * exists a. split; [apply list_elem_of_here | exact H].
      * exists x. split; [by apply list_elem_of_further | exact H].
    + intros (x & Hx & H). apply elem_of_cons in Hx as [->|Hx]; eauto.
Qed.

Lemma keys_have_no_hyphen (words : list string) (n : string) :
  n ∈ arrayKeys words \/ n ∈ optionalKeys words \/ n ∈ markerKeys words ->
  hasByte "-" n = false.
Proof.
  unfold arrayKeys, optionalKeys, markerKeys, markers.
  intros [H|[H|H]].
  - apply elem_of_concat_map in H as (w & _ & Hn). unfold arrayKeysOf in Hn.
    destruct (optionalFind w) as [m|]; [|by apply elem_of_nil in Hn].
    destruct (String.eqb (m2 m) "..."); [|by apply elem_of_nil in Hn].
    apply list_elem_of_singleton in Hn as ->. apply ReplaceAll_hyphen_hasByte.
  - apply elem_of_concat_map in H as (w & _ & Hn). unfold optionalKeysOf in Hn.
    destruct (optionalFind w) as [m|]; [|by apply elem_of_nil in Hn].
    destruct (String.eqb (m2 m) "..."); [by apply elem_of_nil in Hn|].
    apply list_elem_of_singleton in Hn as ->. apply ReplaceAll_hyphen_hasByte.
  - apply list_elem_of_fmap in H as (m & -> & _).
    apply ReplaceAll_hyphen_hasByte.
Qed.

(** X4.  No key of the schema's properties and no name of its required
    list contains a hyphen. *)
Theorem schema_names_have_no_hyphen (args_ : list string) (n : string) :
  is_Some (Properties (InputSchema (FromArgs args_)) !! n)
  \/ inRequired n (InputSchema (FromArgs args_)) ->
  hasByte "-" n = false.
Proof.
  rewrite inRequired_iff, Properties_is_Some_iff. intros H.
  apply (keys_have_no_hyphen (drop 1 args_)). tauto.
Qed.

Lemma schema_names_have_no_hyphen_witness : hasByte "-" "dry_run" = false.
Proof.
  apply (schema_names_have_no_hyphen ["make"; "[dry-run]"] "dry_run").
  left. vm_compute. eauto.
Defined.

(** ** The field registry *)

Lemma fold_parseMatch_templates (i : nat) (ms : list submatch) :
  forall st,
    bpTemplates (fold_left (parseMatch i) ms st)
    = bpTemplates st
        ++ map (fun m => mkTemplate i (markerKey m) (markerDescription m)
                                    false false) ms.
Proof.
  induction ms as [|m ms IH]; intros st; simpl.
  - by rewrite app_nil_r.
  - rewrite IH. unfold parseMatch. cbn [bpTemplates].
    rewrite <- app_assoc. reflexivity.
Qed.

Lemma parseArg_templates (i : nat) (st : parseState) (w : string) :
  bpTemplates (parseArg i st w) = bpTemplates st ++ templatesOf i w.
Proof.
  unfold parseArg, templatesOf. destruct (optionalFind w) as [m|].
  - fold (optionalKey m). destruct (String.eqb (m2 m) "..."); reflexivity.
  - cbn [bpTemplates]. destruct (0 <? length (templateFindAll w)) eqn:E.
    + apply fold_parseMatch_templates.
    + apply Nat.ltb_ge in E.
      destruct (templateFindAll w); [|simpl in E; lia].
      by rewrite app_nil_r.
Qed.

Lemma parseLoop_templates_elem_of (words : list string) (t : template) :
  forall (i : nat) (st : parseState),
    t ∈ bpTemplates (parseLoop i words st)
    <-> t ∈ bpTemplates st
        \/ exists k w, words !! k = Some w /\ t ∈ templatesOf (i + k) w.
Proof.
  induction words as [|w words IH]; intros i st; simpl.
  - split; [auto|]. intros [H|(k & w & Hk & _)]; [exact H|].
    by rewrite lookup_nil in Hk.
  - rewrite IH, parseArg_templates, elem_of_app. split.
    + intros [[H|H]|(k & w' & Hk & H)].
      * by left.
      * right. exists 0, w. rewrite Nat.add_0_r. by split.
      * right. exists (S k), w'. split; [exact Hk|].
        by replace (i + S k) with (S i + k) by lia.
    + intros [H|(k & w' & Hk & H)]; [left; by left|].
      destruct k as [|k].
      * simpl in Hk. injection Hk as <-. rewrite Nat.add_0_r in H.
        left. by right.
      * right. exists k, w'. split; [exact Hk|].
        by replace (S i + k) with (i + S k) by lia.
Qed.

Lemma parseLoop_templates (words : list string) :
  forall (i : nat) (st : parseState),
    bpTemplates (parseLoop i words st)
    = bpTemplates st
        ++ concat (imap (fun k w => templatesOf (i + k) w) words).
Proof.
  induction words as [|w words IH]; intros i st; simpl.
  - by rewrite app_nil_r.
  - rewrite IH, parseArg_templates, Nat.add_0_r, <- app_assoc.
    do 3 f_equal. apply imap_ext. intros k w' _. simpl. f_equal. lia.
Qed.

(** X5.  The field registry of the blueprint is the list of the fields of
    the words behind the base command, word by word in the order of the
    vector, each field under the index of its word: one optional field
    for an optional-field word, and for any other word one required field
    with its description for every marker, in the order of the markers.
    So a field is in the registry exactly when it is a field of the word
    at its index. *)
Theorem templates_of_words (args_ : list string) (t : template) :
  templates (FromArgs args_)
  = concat (imap (fun k w => templatesOf (S k) w) (drop 1 args_))
  /\ (t ∈ templates (FromArgs args_)
      <-> exists w, 1 <= argIndex t /\ args_ !! argIndex t = Some w
                    /\ t ∈ templatesOf (argIndex t) w).
Proof.
  split.
  { destruct args_ as [|arg0 words]; [reflexivity|].
    unfold FromArgs, blueprintOf. cbn [templates].
    by rewrite parseLoop_templates. }
  assert (forall i w t', t' ∈ templatesOf i w -> argIndex t' = i) as Hidx.
  { intros i w t'. unfold templatesOf. destruct (optionalFind w) as [m|].
    - destruct (String.eqb (m2 m) "...");
        intros ->%list_elem_of_singleton; reflexivity.
    - intros (m & -> & _)%list_elem_of_fmap. reflexivity. }
  destruct args_ as [|arg0 words].
  - simpl. rewrite elem_of_nil. split; [tauto|].
    intros (w & _ & H & _). by rewrite lookup_nil in H.
  - unfold FromArgs, blueprintOf. cbn [templates].
    rewrite parseLoop_templates_elem_of. cbn [bpTemplates].
    rewrite elem_of_nil. split.
    + intros [[]|(k & w & Hk & H)]. pose proof (Hidx _ _ _ H) as Ht.
      exists w. rewrite Ht. split; [lia|]. split; [exact Hk | exact H].
    + intros (w & Hge & Hw & H). right.
      destruct (argIndex t) as [|k] eqn:E; [lia|].
      exists k, w. split; [exact Hw | exact H].
Qed.

Lemma templates_of_words_witness :
  mkTemplate 2 "file_name" "the file" false false
  ∈ templates (FromArgs ["cat"; "[opts...]"; "{{ file-name # the file }}"]).
Proof.
  apply (templates_of_words ["cat"; "[opts...]"; "{{ file-name # the file }}"]).
  exists "{{ file-name # the file }}". split; [simpl; lia|].
  split; [reflexivity|]. vm_compute. apply list_elem_of_here.
Defined.

(** ** The property of a name that only optional-field words carry *)

Lemma parseArg_properties_frame (i : nat) (st : parseState) (w : string)
    (n : string) :
  n ∉ arrayKeysOf w -> n ∉ optionalKeysOf w ->
  n ∉ map markerKey (markersOf w) ->
  properties (parseArg i st w) !! n = properties st !! n.
Proof.
  intros Ha Ho Hm.
  destruct (properties st !! n) as [p|] eqn:E.
  - destruct (propertyAfter []) eqn:Hnone; [discriminate|].
    unfold parseArg. unfold arrayKeysOf, optionalKeysOf, markersOf in *.
    destruct (optionalFind w) as [m|].
    + fold (optionalKey m).
      assert (optionalKey m <> n) as Hne.
      { intros <-. destruct (String.eqb (m2 m) "...");
          [apply Ha | apply Ho]; apply list_elem_of_here. }
      destruct (String.eqb (m2 m) "..."); cbn [properties];
        by rewrite lookup_insert_ne.
    + cbn [properties]. destruct (0 <? length (templateFindAll w)); [|exact E].
      clear Ha Ho. revert st E.
      induction (templateFindAll w) as [|m ms IH]; intros st E; [exact E|].
      simpl. apply IH.
      * intros H. apply Hm. simpl. by apply list_elem_of_further.
      * rewrite parseMatch_properties, decide_False; [exact E|].
        intros <-. apply Hm. simpl. apply list_elem_of_here.
  - apply eq_None_not_Some. intros H.
    apply parseArg_properties_is_Some in H as [H|[H|[H|H]]]; try done.
    rewrite E in H. by destruct H.
Qed.

Lemma parseLoop_properties_optional (n : string) (p : Property)
    (words : list string) :
  forall (i : nat) (st : parseState),
    (forall w, w ∈ words ->
       (n ∉ map markerKey (markersOf w))
       /\ forall m, optionalFind w = Some m -> optionalKey m = n ->
            mkProperty (if String.eqb (m2 m) "..." then "array" else "string")
                       (if String.eqb (m2 m) "..."
                        then "Additional command line arguments" else "")
                       (if String.eqb (m2 m) "..." then Some "string" else None)
            = p) ->
    properties st !! n = None \/ properties st !! n = Some p ->
    properties (parseLoop i words st) !! n = None
    \/ properties (parseLoop i words st) !! n = Some p.
Proof.
  induction words as [|w words IH]; intros i st Hw Hst; [exact Hst|].
  simpl. apply IH.
  - intros w' Hw'. apply Hw. by apply list_elem_of_further.
  - destruct (Hw w (list_elem_of_here _ _)) as [Hm Hp].
    destruct (optionalFind w) as [m|] eqn:Eo.
    + destruct (decide (optionalKey m = n)) as [Hk|Hk].
      * right. specialize (Hp m eq_refl Hk). unfold parseArg. rewrite Eo.
        fold (optionalKey m). rewrite Hk.
        destruct (String.eqb (m2 m) "..."); cbn [properties];
          by rewrite lookup_insert_eq, <- Hp.
      * rewrite parseArg_properties_frame; [exact Hst| | |exact Hm];
          unfold arrayKeysOf, optionalKeysOf; rewrite Eo;
          destruct (String.eqb (m2 m) "...");
          rewrite ?elem_of_nil, ?list_elem_of_singleton; auto.
    + rewrite parseArg_properties_frame; [exact Hst| | |exact Hm];
        unfold arrayKeysOf, optionalKeysOf; rewrite Eo; apply not_elem_of_nil.
Qed.

Lemma markerKeys_of_word (words : list string) (w : string) (n : string) :
  w ∈ words -> n ∈ map markerKey (markersOf w) -> n ∈ markerKeys words.
Proof.
  intros Hw Hn. unfold markerKeys, markers.
  apply list_elem_of_fmap in Hn as (m & -> & Hm).
  apply list_elem_of_fmap_2, elem_of_concat_map. eauto.
Qed.

(** X6.  A name that only optional-array words introduce has the array
    property (items of type string, described as additional command line
    arguments), and a name that only plain optional words introduce has a
    string property without description. *)
Theorem optional_field_property (args_ : list string) (n : string) :
  n ∉ markerKeys (drop 1 args_) ->
  (n ∈ arrayKeys (drop 1 args_) -> n ∉ optionalKeys (drop 1 args_) ->
   Properties (InputSchema (FromArgs args_)) !! n
   = Some (mkProperty "array" "Additional command line arguments"
                      (Some "string")))
  /\ (n ∈ optionalKeys (drop 1 args_) -> n ∉ arrayKeys (drop 1 args_) ->
      Properties (InputSchema (FromArgs args_)) !! n
      = Some (mkProperty "string" "" None)).
Proof.
  intros Hm.
  assert (forall p,
    (forall w m, w ∈ drop 1 args_ -> optionalFind w = Some m ->
                 optionalKey m = n ->
       mkProperty (if String.eqb (m2 m) "..." then "array" else "string")
                  (if String.eqb (m2 m) "..."
                   then "Additional command line arguments" else "")
                  (if String.eqb (m2 m) "..." then Some "string" else None)
       = p) ->
    is_Some (Properties (InputSchema (FromArgs args_)) !! n) ->
    Properties (InputSchema (FromArgs args_)) !! n = Some p) as Hp.
  { intros p Hw Hs. destruct args_ as [|arg0 words].
    { simpl in Hs. rewrite lookup_empty in Hs. by destruct Hs. }
    change (drop 1 (arg0 :: words)) with words in *.
    rewrite Properties_FromArgs in *.
    destruct (parseLoop_properties_optional n p words 1
                (mkParseState [arg0] ∅ [] [])) as [H|H].
    - intros w Hin. split.
      + intros H. apply Hm. by apply (markerKeys_of_word words w).
      + intros m. by apply Hw.
    - left. apply lookup_empty.
    - rewrite H in Hs. by destruct Hs.
    - exact H. }
  split.
  - intros Ha Ho. apply Hp; [|apply Properties_is_Some_iff; tauto].
    intros w m Hw Hopt Hk.
    destruct (String.eqb (m2 m) "...") eqn:E; [reflexivity|].
    destruct Ho. apply elem_of_concat_map. exists w. split; [exact Hw|].
    unfold optionalKeysOf. rewrite Hopt, E, Hk. apply list_elem_of_here.
  - intros Ho Ha. apply Hp; [|apply Properties_is_Some_iff; tauto].
    intros w m Hw Hopt Hk.
    destruct (String.eqb (m2 m) "...") eqn:E; [|reflexivity].
    destruct Ha. apply elem_of_concat_map. exists w. split; [exact Hw|].
    unfold arrayKeysOf. rewrite Hopt, E, Hk. apply list_elem_of_here.
Qed.

Lemma optional_field_property_witness :
  Properties (InputSchema (FromArgs ["ls"; "[path]"; "[flags...]"; "[path]"]))
    !! "path"
  = Some (mkProperty "string" "" None).
Proof.
  destruct (optional_field_property
              ["ls"; "[path]"; "[flags...]"; "[path]"] "path") as [_ H].
  - vm_compute. apply not_elem_of_nil.
  - apply H.
    + vm_compute. apply list_elem_of_here.
    + vm_compute. intros H'. apply list_elem_of_singleton in H'. discriminate.
Defined.

(** X7.  The schema is empty exactly when the vector has no field: there
    is no property when no word behind the base command is an
    optional-field word or holds a marker, and the required list is
    absent when none is an optional-array word or holds a marker. *)
Theorem schema_empty_iff (args_ : list string) :
  (Properties (InputSchema (FromArgs args_)) = ∅
   <-> arrayKeys (drop 1 args_) = [] /\ optionalKeys (drop 1 args_) = []
       /\ markerKeys (drop 1 args_) = [])
  /\ (Required (InputSchema (FromArgs args_)) = None
      <-> arrayKeys (drop 1 args_) = [] /\ markerKeys (drop 1 args_) = []).
Proof.
  assert (forall l : list string, l = [] <-> forall n, n ∉ l) as Hnil.
  { intros l. split; [intros -> n; apply not_elem_of_nil|].
    intros H. destruct l as [|x l]; [reflexivity|].
    destruct (H x). apply list_elem_of_here. }
  split.
  - rewrite map_empty, !Hnil. split.
    + intros H. repeat split; intros n Hn;
        assert (is_Some (Properties (InputSchema (FromArgs args_)) !! n)) as Hs
          by (apply Properties_is_Some_iff; tauto);
        rewrite H in Hs; by destruct Hs.
    + intros (Ha & Ho & Hm) n. apply eq_None_not_Some.
      rewrite Properties_is_Some_iff. intros [H|[H|H]];
        [by apply (Ha n) | by apply (Ho n) | by apply (Hm n)].
  - rewrite !Hnil. split.
    + intros H. split; intros n Hn;
        assert (inRequired n (InputSchema (FromArgs args_))) as Hr
          by (apply inRequired_iff; tauto);
        unfold inRequired in Hr; by rewrite H in Hr.
    + intros (Ha & Hm).
      destruct (Required (InputSchema (FromArgs args_))) as [l|] eqn:E;
        [|reflexivity].
      destruct l as [|n l].
      * destruct args_ as [|arg0 words]; [discriminate|].
        unfold FromArgs, blueprintOf in E. cbn [InputSchema Required] in E.
        destruct (required _); discriminate.
      * assert (inRequired n (InputSchema (FromArgs args_))) as Hr
          by (unfold inRequired; rewrite E; apply list_elem_of_here).
        apply inRequired_iff in Hr as [H|H];
          [by destruct (Ha n) | by destruct (Hm n)].
Qed.

(** ** The rendered vector *)

(** X8.  The rendered vector of any blueprint starts with the base
    command, whatever the parameters: it is never empty. *)
Theorem render_starts_with_base_command (bp : Blueprint)
    (params : gmap string Value) :
  exists entries, BuildCommandArgs bp params = BaseCommand bp :: entries.
Proof.
  unfold BuildCommandArgs. rewrite buildLoop_app.
  eexists. reflexivity.
Qed.

(** X9.  Rendering goes word by word: the rendered vector of a vector
    split in two is the rendered vector of its front part followed by the
    entries of the words of its back part. *)
Theorem render_app (params : gmap string Value) (arg0 : string)
    (front back : list string) :
  BuildCommandArgs (FromArgs (arg0 :: front ++ back)) params
  = BuildCommandArgs (FromArgs (arg0 :: front)) params
      ++ drop 1 (BuildCommandArgs (FromArgs (arg0 :: back)) params).
Proof.
  rewrite !BuildCommandArgs_words, map_app, concat_app. reflexivity.
Qed.

Lemma buildArg_length (params : gmap string Value) (w : string) :
  (optionalFind w = None -> length (buildArg params 1 [] w) = 1)
  /\ (arrayKeysOf w = [] -> length (buildArg params 1 [] w) <= 1).
Proof.
  split.
  - intros H. by rewrite buildArg_markers.
  - unfold arrayKeysOf. destruct (optionalFind w) as [m|] eqn:E.
    + unfold buildArg. rewrite skipArgs_never, E.
      destruct (String.eqb (m2 m) "..."); [discriminate|]. intros _.
      destruct (params !! ReplaceAll (m1 m) "-" "_") as [[s| | |]|];
        simpl; try lia.
      destruct (negb (isEmpty s)); simpl; lia.
    + intros _. rewrite buildArg_markers by exact E. simpl. lia.
Qed.



Lemma buildArg_empty_params (w : string) :
  buildArg ∅ 1 [] w = if isOptionalWord w then [] else [w].
Proof.
  unfold isOptionalWord. destruct (optionalFind w) as [m|] eqn:E.
  - unfold buildArg. rewrite skipArgs_never, E, lookup_empty.
    destruct (String.eqb (m2 m) "..."); reflexivity.
  - rewrite buildArg_markers by exact E.
    rewrite fold_substituteMatch_notString; [reflexivity|].
    intros m _ str. rewrite lookup_empty. discriminate.
Qed.


Lemma buildArg_agree (params params' : gmap string Value) (w : string) :
  (forall n, n ∈ wordOptionalKeys w -> params' !! n = params !! n) ->
  (forall n, n ∈ map markerKey (markersOf w) -> params' !! n = params !! n) ->
  buildArg params' 1 [] w = buildArg params 1 [] w.
Proof.
  unfold wordOptionalKeys, markersOf. intros Ho Hm.
  destruct (optionalFind w) as [m|] eqn:E.
  - unfold buildArg. rewrite !skipArgs_never, E. fold (optionalKey m).
    rewrite (Ho (optionalKey m)) by apply list_elem_of_here. reflexivity.
  - rewrite !buildArg_markers by exact E. f_equal.
    apply fold_substituteMatch_agree. intros m Hin. apply Hm.
    by apply list_elem_of_fmap_2.
Qed.

(** X12.  The rendered vector only depends on the values bound to the
    names of the vector's own placeholders: two parameter mappings that
    agree on the names of its optional-field words and of its markers
    give the same vector, so that further parameters are ignored. *)
Theorem render_depends_on_placeholder_names
    (params params' : gmap string Value) (arg0 : string)
    (words : list string) :
  (forall n, n ∈ lookupKeys words -> params' !! n = params !! n) ->
  BuildCommandArgs (FromArgs (arg0 :: words)) params'
  = BuildCommandArgs (FromArgs (arg0 :: words)) params.
Proof.
  unfold lookupKeys. intros H. rewrite !BuildCommandArgs_words. f_equal.
  f_equal. apply map_ext_in. intros w Hw%list_elem_of_In.
  apply buildArg_agree; intros n Hn; apply H; apply elem_of_app.
  - left. apply elem_of_concat_map. eauto.
  - right. by apply (markerKeys_of_word words w).
Qed.

Lemma render_depends_on_placeholder_names_witness :
  BuildCommandArgs (FromArgs ["echo"; "{{text}}"])
                   (<["verbose" := VOther]> {["text" := VString "hi"]})
  = BuildCommandArgs (FromArgs ["echo"; "{{text}}"]) {["text" := VString "hi"]}.
Proof.
  apply (render_depends_on_placeholder_names
           {["text" := VString "hi"]}
           (<["verbose" := VOther]> {["text" := VString "hi"]})
           "echo" ["{{text}}"]).
  intros n Hn. vm_compute in Hn.
  apply list_elem_of_singleton in Hn as ->. reflexivity.
Defined.

Lemma templatePieces_of_match (m : submatch) :
  isMatch m -> templatePieces (m0 m) = [Hit m].
Proof.
  intros (s & rest & H).
  pose proof (templateMatchAt_text _ _ _ "" H) as Hm.
  rewrite sapp_nil_r in Hm. by rewrite (templatePieces_hit _ _ _ Hm).
Qed.

Lemma optionalFind_of_match (m : submatch) :
  isMatch m -> optionalFind (m0 m) = None.
Proof.
  intros (s & rest & H). apply templateMatchAt_Some in H as (_ & -> & _).
  reflexivity.
Qed.

(** X13.  A word that is one marker and nothing else is rendered as the
    string bound to its name, as it is: the empty string, too, is passed
    on as an argument. *)
Theorem whole_word_marker (params : gmap string Value) (arg0 : string)
    (pre post : list string) (m : submatch) (str : string) :
  isMatch m ->
  params !! markerKey m = Some (VString str) ->
  contributes params arg0 pre (m0 m) post [str].
Proof.
  intros Hm Hb. apply contributes_eq.
  rewrite (buildArg_markers _ _ (optionalFind_of_match m Hm)).
  unfold templateFindAll. rewrite (templatePieces_of_match m Hm). simpl.
  unfold substituteMatch. fold (markerKey m). rewrite Hb.
  rewrite <- (sapp_nil_r (m0 m)) at 1.
  rewrite ReplaceAll_here by (by apply isMatch_nonempty).
  by rewrite ReplaceAll_nil, sapp_nil_r.
Qed.

Lemma whole_word_marker_witness :
  contributes {["msg" := VString ""]} "say" ["-v"] "{{ msg # what to say }}" []
              [""].
Proof.
  apply (whole_word_marker {["msg" := VString ""]} "say" ["-v"] []
           (Submatch "{{ msg # what to say }}" " msg " " what to say ") "").
  - exists "{{ msg # what to say }}", "". reflexivity.
  - reflexivity.
Defined.

(** ** Vectors without placeholder *)

Lemma parseLoop_plain (words : list string) :
  Forall plainWord words ->
  forall (i : nat) (st : parseState),
    parseLoop i words st
    = mkParseState (descriptionParts st ++ words) (properties st)
                   (required st) (bpTemplates st).
Proof.
  induction 1 as [|w ws Hw _ IH]; intros i st; simpl.
  - rewrite app_nil_r. by destruct st.
  - rewrite IH, (parseArg_plain _ _ _ Hw). cbn.
    by rewrite <- app_assoc.
Qed.

(** X14.  A vector whose words behind the base command have no
    placeholder syntax gives a blueprint without fields: the description
    quotes the words as given, joined by spaces, and the schema has no
    property and no required list. *)
Theorem plain_vector_blueprint (arg0 : string) (words : list string) :
  Forall plainWord words ->
  FromArgs (arg0 :: words)
  = mkBlueprint arg0 (ReplaceAll arg0 "-" "_")
      ("Run the shell command `" +:+ Join (arg0 :: words) " " +:+ "`")
      (mkSchema "object" ∅ None) (arg0 :: words) [].
Proof.
  intros H. unfold FromArgs, blueprintOf.
  rewrite (parseLoop_plain words H). reflexivity.
Qed.

Lemma plain_vector_blueprint_witness :
  ToolDescription (FromArgs ["git"; "status"; "--short"])
  = "Run the shell command `git status --short`".
Proof.
  rewrite (plain_vector_blueprint "git" ["status"; "--short"]);
    [reflexivity|].
  repeat constructor.
Defined.

(** ** The order of the required list *)

Lemma elem_of_firstOccurrences (l : list string) (x : string) :
  x ∈ firstOccurrences l <-> x ∈ l.
Proof.
  unfold firstOccurrences.
  rewrite !list_elem_of_In, <- in_rev, <- !list_elem_of_In.
  rewrite elem_of_remove_dups, !list_elem_of_In, <- in_rev. reflexivity.
Qed.

Lemma firstOccurrences_snoc (l : list string) (x : string) :
  firstOccurrences (l ++ [x])
  = if decide (x ∈ l) then firstOccurrences l else firstOccurrences l ++ [x].
Proof.
  unfold firstOccurrences. rewrite rev_unit. cbn [remove_dups].
  destruct (decide_rel elem_of x (rev l)) as [H|H];
    rewrite list_elem_of_In, <- in_rev, <- list_elem_of_In in H.
  - rewrite decide_True by exact H. reflexivity.
  - rewrite decide_False by exact H. reflexivity.
Qed.

Lemma fold_parseMatch_required_first (i : nat) (ms : list submatch) :
  forall (st : parseState) (l0 : list string),
    required st = firstOccurrences l0 ->
    required (fold_left (parseMatch i) ms st)
    = firstOccurrences (l0 ++ map markerKey ms).
Proof.
  induction ms as [|m ms IH]; intros st l0 H; simpl.
  - by rewrite app_nil_r.
  - change (markerKey m :: map markerKey ms)
      with ([markerKey m] ++ map markerKey ms).
    rewrite app_assoc. apply IH.
    rewrite parseMatch_required, firstOccurrences_snoc, H.
    destruct (contains (firstOccurrences l0) (markerKey m)) eqn:E.
    + apply contains_elem_of in E. rewrite elem_of_firstOccurrences in E.
      by rewrite decide_True.
    + rewrite decide_False; [reflexivity|]. intros Hin.
      rewrite <- elem_of_firstOccurrences in Hin.
      apply contains_elem_of in Hin. congruence.
Qed.

Lemma parseLoop_required_first (words : list string) :
  forall (i : nat) (st : parseState) (l0 : list string),
    arrayKeys words = [] ->
    required st = firstOccurrences l0 ->
    required (parseLoop i words st)
    = firstOccurrences (l0 ++ markerKeys words).
Proof.
  unfold arrayKeys, markerKeys, markers.
  induction words as [|w words IH]; intros i st l0 Ha H; simpl.
  - by rewrite app_nil_r.
  - simpl in Ha. apply app_eq_nil in Ha as [Hw Ha].
    rewrite map_app, app_assoc. apply IH; [exact Ha|].
    unfold parseArg. unfold arrayKeysOf in Hw. unfold markersOf.
    destruct (optionalFind w) as [m|].
    + destruct (String.eqb (m2 m) "..."); [discriminate|].
      simpl. by rewrite app_nil_r.
    + cbn [required]. destruct (0 <? length (templateFindAll w)) eqn:E.
      * by apply fold_parseMatch_required_first.
      * apply Nat.ltb_ge in E.
        destruct (templateFindAll w); [|simpl in E; lia].
        simpl. by rewrite app_nil_r.
Qed.

(** X15.  Without optional-array word the required list of the schema
    names every marker once, in the order in which the names first occur
    in the vector. *)
Theorem required_in_order_of_first_occurrence (args_ : list string)
    (l : list string) :
  arrayKeys (drop 1 args_) = [] ->
  Required (InputSchema (FromArgs args_)) = Some l ->
  l = firstOccurrences (markerKeys (drop 1 args_)) /\ NoDup l.
Proof.
  intros Ha Hl. split; [|by apply (required_NoDup_without_array_words args_)].
  destruct args_ as [|arg0 words]; [discriminate|].
  change (drop 1 (arg0 :: words)) with words in *.
  unfold FromArgs, blueprintOf in Hl. cbn [InputSchema Required] in Hl.
  destruct (0 <? length _); [|discriminate]. injection Hl as <-.
  by rewrite (parseLoop_required_first words 1 _ [] Ha).
Qed.

Lemma required_in_order_of_first_occurrence_witness :
  ["to"; "from"] = firstOccurrences (markerKeys ["{{to}}"; "{{from}}:{{to}}"])
  /\ NoDup ["to"; "from"].
Proof.
  apply (required_in_order_of_first_occurrence
           ["mv"; "{{to}}"; "{{from}}:{{to}}"] ["to"; "from"]);
    reflexivity.
Defined.

(** X16.  [contains] decides membership in the slice. *)
Theorem contains_spec (slice : list string) (item : string) :
  contains slice item = true <-> item ∈ slice.
Proof. apply contains_elem_of. Qed.

(** ** The display of tokenized shell words *)

Lemma renderFieldTokenForDisplay_is_Some (bp : Types.Blueprint)
    (t : Types.FieldToken) :
  schemaWithoutNil bp -> is_Some (Types.renderFieldTokenForDisplay bp t).
Proof.
  intros (sch & Hs & Hnil). unfold Types.renderFieldTokenForDisplay.
  destruct (negb (isEmpty (Types.OriginalFlag t))); [eauto|].
  destruct (Types.Required t); [eauto|]. rewrite Hs.
  destruct (Types.Properties sch !! _) as [[p|]|] eqn:E; [|by destruct (Hnil _ E)|eauto].
  destruct (String.eqb (pType p) "array"); eauto.
Qed.

Lemma writeTokens_concat (bp : Types.Blueprint) (tokens : list Types.Token) :
  schemaWithoutNil bp ->
  forall result,
    Types.writeTokens bp tokens result
    = Some (result +:+ concatStrings (map (tokenDisplay bp) tokens)).
Proof.
  intros Hs. induction tokens as [|[t|t|o] tokens IH]; intros result; simpl.
  - by rewrite sapp_nil_r.
  - rewrite IH, sapp_assoc. reflexivity.
  - destruct (renderFieldTokenForDisplay_is_Some bp t Hs) as [s Hr].
    rewrite Hr. simpl. rewrite IH, sapp_assoc. reflexivity.
  - apply IH.
Qed.

Lemma renderTokensForDisplay_wordDisplay (bp : Types.Blueprint)
    (tokens : list Types.Token) :
  schemaWithoutNil bp ->
  tokens <> [Types.Other None] ->
  Types.renderTokensForDisplay bp tokens = Some (wordDisplay bp tokens).
Proof.
  intros Hs Hne. pose proof (writeTokens_concat bp tokens Hs "") as Hw.
  destruct tokens as [|t [|t' tokens]].
  - exact Hw.
  - destruct t as [t|t|[str|]]; simpl.
    + by rewrite sapp_nil_r.
    + rewrite sapp_nil_r.
      destruct (renderFieldTokenForDisplay_is_Some bp t Hs) as [s Hr].
      by rewrite Hr.
    + reflexivity.
    + congruence.
  - destruct t as [t|t|[str|]]; exact Hw.
Qed.

(** X17.  When the blueprint has a schema none of whose property entries
    is nil, the display of a shell word that is not a single token of
    another kind is the display of its tokens one after the other: the
    text of a text token, the display of a field token, and nothing for a
    token of another kind.  A word that is one token of another kind is
    displayed, with any schema, as its method [String] says, and fails
    when that fails; so for such a token the shortcut for a word of one
    token and the loop differ. *)
Theorem renderTokensForDisplay_concat (bp : Types.Blueprint)
    (tokens : list Types.Token) :
  (schemaWithoutNil bp ->
   (forall str, tokens <> [Types.Other str]) ->
   Types.renderTokensForDisplay bp tokens
   = Some (concatStrings (map (tokenDisplay bp) tokens)))
  /\ (forall str, Types.renderTokensForDisplay bp [Types.Other str] = str)
  /\ (forall str tokens' result,
        Types.writeTokens bp (Types.Other str :: tokens') result
        = Types.writeTokens bp tokens' result).
Proof.
  split; [|split; reflexivity].
  intros Hs Hne.
  rewrite renderTokensForDisplay_wordDisplay by (exact Hs || apply Hne).
  unfold wordDisplay.
  destruct tokens as [|[t|t|[str|]] [|t' tokens]]; try reflexivity.
  by destruct (Hne (Some str)).
Qed.

Lemma renderTokensForDisplay_concat_witness :
  Types.renderTokensForDisplay
    (Types.mkBlueprint "curl" (Some (Types.mkSchema ∅)) [])
    [Types.Text (Types.mkTextToken "--url=");
     Types.Other (Some "ignored");
     Types.Field (Types.mkFieldToken "url" "" true "" "url ")]
  = Some "--url={{url }}".
Proof.
  destruct (renderTokensForDisplay_concat
              (Types.mkBlueprint "curl" (Some (Types.mkSchema ∅)) [])
              [Types.Text (Types.mkTextToken "--url=");
               Types.Other (Some "ignored");
               Types.Field (Types.mkFieldToken "url" "" true "" "url ")])
    as [H _].
  apply H.
  - exists (Types.mkSchema ∅). split; [reflexivity|].
    intros key. simpl. rewrite lookup_empty. discriminate.
  - discriminate.
Defined.

Lemma mapM_total {A B : Type} (f : A -> option B) (g : A -> B) (l : list A) :
  (forall x, x ∈ l -> f x = Some (g x)) -> mapM f l = Some (map g l).
Proof.
  induction l as [|a l IH]; intros H; [reflexivity|]. simpl.
  rewrite (H a) by apply list_elem_of_here. simpl.
  rewrite IH by (intros; apply H; by apply list_elem_of_further).
  reflexivity.
Qed.

(** X18.  When the blueprint has a schema none of whose property entries
    is nil, and no shell word is a single token whose method [String]
    fails, [GetCommandFormat] returns the displays of the shell words
    joined by spaces: of a word that is one token of another kind, what
    [String] returns, and of any other word the displays of its tokens one
    after the other. *)
Theorem GetCommandFormat_words (bp : Types.Blueprint) :
  schemaWithoutNil bp ->
  (forall tokens, tokens ∈ Types.ShellWords bp ->
                  tokens <> [Types.Other None]) ->
  Types.GetCommandFormat bp
  = Some (Join (map (wordDisplay bp) (Types.ShellWords bp)) " ").
Proof.
  intros Hs Hw. unfold Types.GetCommandFormat.
  rewrite (mapM_total _ (wordDisplay bp)); [reflexivity|].
  intros tokens Hin. apply renderTokensForDisplay_wordDisplay; auto.
Qed.

Lemma GetCommandFormat_words_witness :
  Types.GetCommandFormat
    (Types.mkBlueprint "echo"
       (Some (Types.mkSchema
                {["args" := Some (mkProperty "array" "" (Some "string"))]}))
       [[Types.Text (Types.mkTextToken "echo")];
        [Types.Other (Some "-n")];
        [Types.Field (Types.mkFieldToken "args" "" false "" "")]])
  = Some "echo -n [args...]".
Proof.
  rewrite GetCommandFormat_words.
  - vm_compute. reflexivity.
  - eexists. split; [reflexivity|]. intros key. simpl.
    destruct (decide (key = "args")) as [->|Hne].
    + rewrite lookup_singleton_eq. discriminate.
    + rewrite lookup_singleton_ne by congruence. discriminate.
  - intros tokens Hin. simpl in Hin.
    repeat (apply elem_of_cons in Hin as [->|Hin]; [discriminate|]).
    by apply elem_of_nil in Hin.
Defined.

Lemma writeTokens_text (bp : Types.Blueprint) (values : list string) :
  forall result,
    Types.writeTokens bp
      (map (fun v => Types.Text (Types.mkTextToken v)) values) result
    = Some (result +:+ concatStrings values).
Proof.
  induction values as [|v values IH]; intros result; simpl.
  - by rewrite sapp_nil_r.
  - rewrite IH, sapp_assoc. reflexivity.
Qed.

Lemma tokenDisplay_text (bp : Types.Blueprint) (values : list string) :
  map (tokenDisplay bp)
      (map (fun v => Types.Text (Types.mkTextToken v)) values)
  = values.
Proof.
  induction values as [|v values IH]; [reflexivity|].
  cbn [map tokenDisplay Types.Value]. rewrite IH. reflexivity.
Qed.

(** X19.  A blueprint whose shell words hold text tokens only has the
    command format made of the texts of each word put together, joined by
    spaces, whatever its schema, a nil schema included. *)
Theorem GetCommandFormat_text_only (bp : Types.Blueprint)
    (words : list (list string)) :
  Types.ShellWords bp
  = map (map (fun v => Types.Text (Types.mkTextToken v))) words ->
  Types.GetCommandFormat bp = Some (Join (map concatStrings words) " ").
Proof.
  intros Hw. unfold Types.GetCommandFormat. rewrite Hw.
  rewrite (mapM_total _
             (fun tokens => concatStrings (map (tokenDisplay bp) tokens))).
  - cbn [mbind option_bind]. do 2 f_equal. rewrite map_map.
    apply map_ext. intros values. by rewrite tokenDisplay_text.
  - intros tokens (values & -> & _)%list_elem_of_fmap.
    rewrite tokenDisplay_text.
    pose proof (writeTokens_text bp values "") as H.
    destruct values as [|v [|v' values]]; exact H.
Qed.

Lemma GetCommandFormat_text_only_witness :
  Types.GetCommandFormat
    (Types.mkBlueprint "git" None
       [[Types.Text (Types.mkTextToken "git")];
        [Types.Text (Types.mkTextToken "--format=");
         Types.Text (Types.mkTextToken "short")]])
  = Some "git --format=short".
Proof.
  apply (GetCommandFormat_text_only
           (Types.mkBlueprint "git" None
              [[Types.Text (Types.mkTextToken "git")];
               [Types.Text (Types.mkTextToken "--format=");
                Types.Text (Types.mkTextToken "short")]])
           [["git"]; ["--format="; "short"]]).
  reflexivity.
Defined.

Lemma isEmpty_true (s : string) : isEmpty s = true <-> s = "".
Proof. destruct s; split; intros H; try reflexivity; discriminate. Qed.

(** X20.  The display of a field token dereferences the schema only for
    an optional field without flag: it fails exactly when the token has
    no original flag, the field is not required, and either the schema is
    nil or its properties hold a nil entry under the normalized name of
    the field. *)
Theorem renderFieldTokenForDisplay_nil_schema (bp : Types.Blueprint)
    (token : Types.FieldToken) :
  Types.renderFieldTokenForDisplay bp token = None
  <-> Types.OriginalFlag token = ""
      /\ Types.Required token = false
      /\ (Types.InputSchema bp = None
          \/ exists sch,
               Types.InputSchema bp = Some sch
               /\ Types.Properties sch !! ReplaceAll (Types.Name token) "-" "_"
                  = Some None).
Proof.
  unfold Types.renderFieldTokenForDisplay.
  destruct (isEmpty (Types.OriginalFlag token)) eqn:Ef; simpl.
  - apply isEmpty_true in Ef. destruct (Types.Required token).
    + split; [discriminate|]. intros (_ & H & _). discriminate.
    + destruct (Types.InputSchema bp) as [sch|].
      * destruct (Types.Properties sch !! _) as [[p|]|] eqn:E.
        -- split; [destruct (String.eqb (pType p) "array"); discriminate|].
           intros (_ & _ & [H|(sch' & [= <-] & H)]); congruence.
        -- split; [|reflexivity]. intros _. repeat split; [exact Ef|].
           right. eauto.
        -- split; [discriminate|].
           intros (_ & _ & [H|(sch' & [= <-] & H)]); congruence.
      * split; [|reflexivity]. intros _. repeat split; [exact Ef|]. by left.
  - split; [discriminate|]. intros (H & _).
    apply isEmpty_true in H. congruence.
Qed.

(** ** The display of markers without description and the base command *)

Lemma displayForm_without_description (w : string) :
  wordWithoutDescription w -> displayForm w = w.
Proof.
  intros [Hopt Hdesc]. unfold displayForm. rewrite Hopt.
  rewrite <- (templatePieces_source w) at 2.
  apply joinPieces_ext. intros [c|m] Hp; [reflexivity|].
  pose proof (templatePieces_marker w m Hp) as [Hm _].
  apply elem_of_hits in Hp. specialize (Hdesc m Hp).
  simpl. rewrite Hm. unfold markerText. rewrite Hdesc. reflexivity.
Qed.

(** X21.  A word that is no optional-field word and whose markers carry
    no description stands in the tool description of [FromArgs] as it is
    written, at its place between the display forms of the other words;
    when all words behind the base command are such words the tool
    description quotes the vector as it is given. *)
Theorem display_without_description (arg0 : string) :
  (forall pre w post,
      wordWithoutDescription w ->
      ToolDescription (FromArgs (arg0 :: pre ++ w :: post))
      = "Run the shell command `"
          +:+ Join (arg0 :: map displayForm pre ++ w :: map displayForm post) " "
          +:+ "`")
  /\ (forall words,
        Forall wordWithoutDescription words ->
        ToolDescription (FromArgs (arg0 :: words))
        = "Run the shell command `" +:+ Join (arg0 :: words) " " +:+ "`").
Proof.
  split.
  - intros pre w post Hw. rewrite ToolDescription_words, map_app. simpl.
    by rewrite (displayForm_without_description w Hw).
  - intros words Hws. rewrite ToolDescription_words.
    replace (map displayForm words) with words; [reflexivity|].
    induction Hws as [|w ws Hw _ IH]; [reflexivity|].
    simpl. by rewrite <- IH, (displayForm_without_description w Hw).
Qed.

Lemma display_without_description_witness :
  ToolDescription (FromArgs ["range"; "[opts...]"; "--from={{ start }}..{{end}}"])
  = "Run the shell command `range [opts...] --from={{ start }}..{{end}}`"
  /\ ToolDescription (FromArgs ["cp"; "{{from}}"; "{{to}}"])
     = "Run the shell command `cp {{from}} {{to}}`".
Proof.
  assert (forall w ms,
            optionalFind w = None -> templateFindAll w = ms ->
            Forall (fun m => m2 m = "") ms -> wordWithoutDescription w) as Hw.
  { intros w ms Ho <- Hall. split; [exact Ho|].
    intros m Hm. by apply (proj1 (List.Forall_forall _ _) Hall),
                          list_elem_of_In. }
  destruct (display_without_description "range") as [H _].
  destruct (display_without_description "cp") as [_ H'].
  split.
  - apply (H ["[opts...]"] "--from={{ start }}..{{end}}" []).
    eapply Hw; [reflexivity | reflexivity | repeat constructor].
  - apply (H' ["{{from}}"; "{{to}}"]).
    repeat constructor;
      (eapply Hw; [reflexivity | reflexivity | repeat constructor]).
Defined.

Lemma parseMatch_fields (i : nat) (st st' : parseState) (m : submatch) :
  properties st = properties st' -> required st = required st' ->
  bpTemplates st = bpTemplates st' ->
  properties (parseMatch i st m) = properties (parseMatch i st' m)
  /\ required (parseMatch i st m) = required (parseMatch i st' m)
  /\ bpTemplates (parseMatch i st m) = bpTemplates (parseMatch i st' m).
Proof.
  intros Hp Hr Ht. unfold parseMatch. cbn [properties required bpTemplates].
  rewrite Hp, Hr, Ht. repeat split.
Qed.

Lemma fold_parseMatch_fields (i : nat) (ms : list submatch) :
  forall st st',
    properties st = properties st' -> required st = required st' ->
    bpTemplates st = bpTemplates st' ->
    properties (fold_left (parseMatch i) ms st)
    = properties (fold_left (parseMatch i) ms st')
    /\ required (fold_left (parseMatch i) ms st)
       = required (fold_left (parseMatch i) ms st')
    /\ bpTemplates (fold_left (parseMatch i) ms st)
       = bpTemplates (fold_left (parseMatch i) ms st').
Proof.
  induction ms as [|m ms IH]; intros st st' Hp Hr Ht; simpl; [by repeat split|].
  destruct (parseMatch_fields i st st' m Hp Hr Ht) as (? & ? & ?).
  by apply IH.
Qed.

Lemma parseArg_fields (i : nat) (st st' : parseState) (w : string) :
  properties st = properties st' -> required st = required st' ->
  bpTemplates st = bpTemplates st' ->
  properties (parseArg i st w) = properties (parseArg i st' w)
  /\ required (parseArg i st w) = required (parseArg i st' w)
  /\ bpTemplates (parseArg i st w) = bpTemplates (parseArg i st' w).
Proof.
  intros Hp Hr Ht. unfold parseArg. destruct (optionalFind w) as [m|].
  - destruct (String.eqb (m2 m) "...");
      cbn [properties required bpTemplates]; rewrite Hp, Hr, Ht;
      by repeat split.
  - cbn [properties required bpTemplates].
    destruct (0 <? length (templateFindAll w)); [|by repeat split].
    by apply fold_parseMatch_fields.
Qed.

Lemma parseLoop_fields (words : list string) :
  forall (i : nat) (st st' : parseState),
    properties st = properties st' -> required st = required st' ->
    bpTemplates st = bpTemplates st' ->
    properties (parseLoop i words st) = properties (parseLoop i words st')
    /\ required (parseLoop i words st) = required (parseLoop i words st')
    /\ bpTemplates (parseLoop i words st) = bpTemplates (parseLoop i words st').
Proof.
  induction words as [|w words IH]; intros i st st' Hp Hr Ht; simpl;
    [by repeat split|].
  destruct (parseArg_fields i st st' w Hp Hr Ht) as (? & ? & ?).
  by apply IH.
Qed.

(** X22.  The base command is never scanned for placeholders: the schema
    and the field registry of a blueprint are those of the same words
    behind any other base command, and the base command is rendered as it
    is written. *)
Theorem base_command_is_not_scanned (arg0 arg0' : string)
    (words : list string) (params : gmap string Value) :
  InputSchema (FromArgs (arg0 :: words)) = InputSchema (FromArgs (arg0' :: words))
  /\ templates (FromArgs (arg0 :: words)) = templates (FromArgs (arg0' :: words))
  /\ head (BuildCommandArgs (FromArgs (arg0 :: words)) params) = Some arg0.
Proof.
  destruct (parseLoop_fields words 1 (mkParseState [arg0] ∅ [] [])
              (mkParseState [arg0'] ∅ [] []) eq_refl eq_refl eq_refl)
    as (Hp & Hr & Ht).
  split; [|split]; [| |by rewrite BuildCommandArgs_words].
  - unfold FromArgs, blueprintOf. cbn [InputSchema]. by rewrite Hp, Hr.
  - unfold FromArgs, blueprintOf. cbn [templates]. exact Ht.
Qed.
